(** * Prism: verification of [fix_email_parsers.py]

    The script repairs three Rust sources with a fixed sequence of
    [re.sub] and [str.replace] calls per file.  This development embeds
    the two Python primitives on the fragment of the regular-expression
    syntax that the script uses, the three fix routines built from them,
    and the file access around them. *)

From Stdlib Require Import NArith Ascii String List Bool Lia.
From stdpp Require Import base option list strings gmap.

Open Scope N_scope.
Open Scope nat_scope.
Open Scope list_scope.

(** ** Text

    A Python [str] is a sequence of code points. *)

Abbreviation text := (list N).

Definition py (s : string) : text :=
  map N_of_ascii (list_ascii_of_string s).

Definition dq : text := [34%N].
Definition nl : text := [10%N].

Fixpoint lines (ls : list text) : text :=
  match ls with
  | [] => []
  | [l] => l
  | l :: ls' => l ++ nl ++ lines ls'
  end.

(** [\s] on a [str] pattern: the characters for which
    [Py_UNICODE_ISSPACE] holds. *)
Definition is_space (c : N) : bool :=
  ((9 <=? c) && (c <=? 13) || (28 <=? c) && (c <=? 32)
   || (c =? 133) || (c =? 160) || (c =? 5760)
   || (8192 <=? c) && (c <=? 8202)
   || (c =? 8232) || (c =? 8233) || (c =? 8239) || (c =? 8287)
   || (c =? 12288))%N.

(** ** [str.replace] *)

Fixpoint starts_with (p s : text) : bool :=
  match p, s with
  | [], _ => true
  | a :: p', b :: s' => (a =? b)%N && starts_with p' s'
  | _ :: _, [] => false
  end.

(** Left-to-right scan; [skip] counts the characters of the occurrence
    found last that are still to be dropped. *)
Fixpoint replace_scan (old new s : text) (skip : nat) : text * nat :=
  match s with
  | [] => ([], 0)
  | c :: s' =>
      match skip with
      | S k => replace_scan old new s' k
      | O =>
          if starts_with old s
          then let r := replace_scan old new s' (length old - 1) in
               (new ++ r.1, S r.2)
          else let r := replace_scan old new s' 0 in
               (c :: r.1, r.2)
      end
  end.

(** [s.replace(old, new)] together with the number of replacements made;
    an empty [old] matches before every character and at the end. *)
Definition str_replace_count (old new s : text) : text * nat :=
  match old with
  | [] => (new ++ flat_map (fun c => c :: new) s, S (length s))
  | _ :: _ => replace_scan old new s 0
  end.

Definition str_replace (old new s : text) : text :=
  (str_replace_count old new s).1.

(** ** Regular expressions

    The fragment of the [re] syntax used by the script: literal
    characters, escaped punctuation, [\s], the greedy [+] on a single
    character, and capturing groups around sequences. *)

Inductive atom : Type :=
  | AChar (c : N)
  | ASpace.

Inductive item : Type :=
  | IOne (a : atom)
  | IPlus (a : atom)
  | IOpen (k : nat)
  | IClose (k : nat).

(** Result of compiling a pattern or a replacement template:
    [Malformed] is [re.error]; [Unsupported] is syntax that Python
    accepts or rejects but that lies outside the fragment. *)
Inductive outcome (A : Type) : Type :=
  | Ok (a : A)
  | Malformed
  | Unsupported.
Arguments Ok {A} a.
Arguments Malformed {A}.
Arguments Unsupported {A}.

Definition bind_outcome {A B} (o : outcome A) (f : A -> outcome B) : outcome B :=
  match o with
  | Ok a => f a
  | Malformed => Malformed
  | Unsupported => Unsupported
  end.

Definition is_ascii_alnum (c : N) : bool :=
  ((48 <=? c) && (c <=? 57) || (65 <=? c) && (c <=? 90)
   || (97 <=? c) && (c <=? 122))%N.

Definition is_ascii_letter (c : N) : bool :=
  ((65 <=? c) && (c <=? 90) || (97 <=? c) && (c <=? 122))%N.

Definition is_digit (c : N) : bool := ((48 <=? c) && (c <=? 57))%N.

(** [acc] holds the items read so far, last first; [stack] the groups
    still open; [n] the number of groups opened. *)
Fixpoint parse_pattern (s : text) (acc : list item) (stack : list nat) (n : nat)
  : outcome (list item * nat) :=
  match s with
  | [] =>
      match stack with
      | [] => Ok (rev acc, n)
      | _ :: _ => Malformed
      end
  | c :: s' =>
      if (c =? 92)%N then
        match s' with
        | [] => Malformed
        | e :: s'' =>
            if (e =? 115)%N then parse_pattern s'' (IOne ASpace :: acc) stack n
            else if is_ascii_alnum e then Unsupported
            else parse_pattern s'' (IOne (AChar e) :: acc) stack n
        end
      else if (c =? 40)%N then
        match s' with
        | 63%N :: _ => Unsupported
        | _ => parse_pattern s' (IOpen (S n) :: acc) (S n :: stack) (S n)
        end
      else if (c =? 41)%N then
        match stack with
        | [] => Malformed
        | k :: stack' => parse_pattern s' (IClose k :: acc) stack' n
        end
      else if (c =? 43)%N then
        match acc with
        | IOne a :: acc' =>
            match s' with
            | 43%N :: _ | 63%N :: _ => Unsupported
            | _ => parse_pattern s' (IPlus a :: acc') stack n
            end
        | IPlus _ :: _ => Malformed
        | IClose _ :: _ => Unsupported
        | IOpen _ :: _ | [] => Malformed
        end
      else if (c =? 42)%N || (c =? 63)%N then
        match acc with
        | IOne _ :: _ | IClose _ :: _ => Unsupported
        | IPlus _ :: _ => Malformed
        | IOpen _ :: _ | [] => Malformed
        end
      else if (c =? 46)%N || (c =? 94)%N || (c =? 36)%N || (c =? 124)%N
              || (c =? 91)%N || (c =? 123)%N then Unsupported
      else parse_pattern s' (IOne (AChar c) :: acc) stack n
  end.

Definition re_compile (pattern : text) : outcome (list item * nat) :=
  parse_pattern pattern [] [] 0.

(** *** Matching *)

Definition atom_ok (a : atom) (c : N) : bool :=
  match a with
  | AChar x => (x =? c)%N
  | ASpace => is_space c
  end.

(** Length of the longest prefix of [s] made of characters of [a]. *)
Fixpoint run_length (a : atom) (s : text) : nat :=
  match s with
  | c :: s' => if atom_ok a c then S (run_length a s') else 0
  | [] => 0
  end.

(** Greedy repetition: the largest count first, then backtracking down
    to one. *)
Fixpoint greedy {A} (f : nat -> option A) (n : nat) : option A :=
  match n with
  | O => None
  | S k =>
      match f n with
      | Some r => Some r
      | None => greedy f k
      end
  end.

(** A match at the head of [s]: the text consumed by each item of the
    pattern, in order (nothing for a group mark). *)
Fixpoint match_items (p : list item) (s : text) : option (list text) :=
  match p with
  | [] => Some []
  | IOne a :: p' =>
      match s with
      | c :: s' =>
          if atom_ok a c then cons [c] <$> match_items p' s' else None
      | [] => None
      end
  | IPlus a :: p' =>
      greedy (fun k => cons (take k s) <$> match_items p' (drop k s))
             (run_length a s)
  | IOpen _ :: p' | IClose _ :: p' => cons [] <$> match_items p' s
  end.

(** Text captured by group [k]: what the items between its two marks
    consumed. *)
Fixpoint group_text (k : nat) (p : list item) (segs : list text)
    (inside : bool) : text :=
  match p, segs with
  | it :: p', g :: segs' =>
      match it with
      | IOpen j =>
          group_text k p' segs' (if Nat.eqb j k then true else inside)
      | IClose j =>
          if Nat.eqb j k then [] else group_text k p' segs' inside
      | _ =>
          if inside then g ++ group_text k p' segs' inside
          else group_text k p' segs' inside
      end
  | _, _ => []
  end.

(** *** Replacement templates *)

Inductive titem : Type :=
  | TLit (c : N)
  | TRef (k : nat).

Definition template_escape (c : N) : option N :=
  if (c =? 97)%N then Some 7%N
  else if (c =? 98)%N then Some 8%N
  else if (c =? 102)%N then Some 12%N
  else if (c =? 110)%N then Some 10%N
  else if (c =? 114)%N then Some 13%N
  else if (c =? 116)%N then Some 9%N
  else if (c =? 118)%N then Some 11%N
  else if (c =? 92)%N then Some 92%N
  else None.

Fixpoint parse_template (groups : nat) (s : text) : outcome (list titem) :=
  match s with
  | [] => Ok []
  | c :: s' =>
      if (c =? 92)%N then
        match s' with
        | [] => Malformed
        | e :: s'' =>
            if is_digit e then
              if (e =? 48)%N then Unsupported
              else
                match s'' with
                | d :: _ =>
                    if is_digit d then Unsupported
                    else if Nat.leb (N.to_nat (e - 48)) groups
                    then bind_outcome (parse_template groups s'')
                           (fun t => Ok (TRef (N.to_nat (e - 48)) :: t))
                    else Malformed
                | [] =>
                    if Nat.leb (N.to_nat (e - 48)) groups
                    then Ok [TRef (N.to_nat (e - 48))]
                    else Malformed
                end
            else if (e =? 103)%N then Unsupported
            else
              match template_escape e with
              | Some x =>
                  bind_outcome (parse_template groups s'')
                    (fun t => Ok (TLit x :: t))
              | None =>
                  if is_ascii_letter e then Malformed
                  else bind_outcome (parse_template groups s'')
                         (fun t => Ok (TLit c :: TLit e :: t))
              end
        end
      else bind_outcome (parse_template groups s') (fun t => Ok (TLit c :: t))
  end.

Definition expand (tm : list titem) (p : list item) (segs : list text) : text :=
  flat_map (fun t => match t with
                     | TLit c => [c]
                     | TRef k => group_text k p segs false
                     end) tm.

(** *** Substitution

    The leftmost match is replaced and the scan resumes after its end.
    An empty match is followed by the next character of the text. *)
Fixpoint sub_scan (p : list item) (tm : list titem) (s : text) (skip : nat)
  : text * nat :=
  match s with
  | [] =>
      match skip, match_items p [] with
      | O, Some segs => (expand tm p segs, 1)
      | _, _ => ([], 0)
      end
  | c :: s' =>
      match skip with
      | S k => sub_scan p tm s' k
      | O =>
          match match_items p s with
          | Some segs =>
              let n := length (concat segs) in
              let r := sub_scan p tm s' (n - 1) in
              (expand tm p segs ++ (if Nat.eqb n 0 then c :: r.1 else r.1),
               S r.2)
          | None =>
              let r := sub_scan p tm s' 0 in
              (c :: r.1, r.2)
          end
      end
  end.

(** The only flag the script passes; it changes the meaning of [.],
    which the fragment does not contain. *)
Inductive flag : Type := DOTALL.

(** [re.subn(pattern, repl, string, flags=flags)]: the pattern is
    compiled, then the template, then the text is scanned. *)
Definition re_subn (pattern repl s : text) (flags : list flag)
  : outcome (text * nat) :=
  bind_outcome (re_compile pattern) (fun pn =>
  bind_outcome (parse_template pn.2 repl) (fun tm =>
  Ok (sub_scan pn.1 tm s 0))).

(** [re.sub(pattern, repl, string, flags=flags)]. *)
Definition re_sub (pattern repl s : text) (flags : list flag) : outcome text :=
  bind_outcome (re_subn pattern repl s flags) (fun r => Ok r.1).
(* line 13 *)
Definition mbox_pattern1 : text :=
    py "(fn format_email_header\(&self, label: &str, value: &str\) -> TextRun \{\s+TextRun \{\s+text: format!\(" ++ dq ++ py "\{}: \{}\}\\n" ++ dq ++ py ", label, value\),\s+style: TextStyle \{\s+bold: label == " ++ dq ++ py "From" ++ dq ++ py " \|\| label == " ++ dq ++ py "To" ++ dq ++ py " \|\| label == " ++ dq ++ py "Subject" ++ dq ++ py ",\s+\.\.Default::default\(\)\s+\},)\s+(\})".

Definition mbox_repl1 : text :=
    py "\1\n            bounds: None,\n            char_positions: None,\n        \2".

(* line 21 *)
Definition mbox_pattern2 : text :=
    py "text_runs\.push\(TextRun \{\s+text: " ++ dq ++ py "\\n" ++ dq ++ py "\.to_string\(\),\s+style: Default::default\(\),\s+\}\);".

Definition mbox_repl2 : text :=
    lines [
      py "text_runs.push(TextRun {";
      py "            text: " ++ dq ++ py "\n" ++ dq ++ py ".to_string(),";
      py "            style: Default::default(),";
      py "            bounds: None,";
      py "            char_positions: None,";
      py "        });" ].

(* line 33 *)
Definition mbox_pattern3 : text :=
    py "text_runs\.push\(TextRun \{\s+text: body_text,\s+style: Default::default\(\),\s+\}\);".

Definition mbox_repl3 : text :=
    lines [
      py "text_runs.push(TextRun {";
      py "            text: body_text,";
      py "            style: Default::default(),";
      py "            bounds: None,";
      py "            char_positions: None,";
      py "        });" ].

(* line 45 *)
Definition mbox_pattern4 : text :=
    py "let text_block = TextBlock \{\s+runs: text_runs,\s+bounds: None,\s+\};".

Definition mbox_repl4 : text :=
    lines [
      py "let text_block = TextBlock {";
      py "                            runs: text_runs,";
      py "                            bounds: prism_core::document::Rect {";
      py "                                x: 0.0,";
      py "                                y: 0.0,";
      py "                                width: Dimensions::LETTER.width,";
      py "                                height: Dimensions::LETTER.height,";
      py "                            },";
      py "                            paragraph_style: None,";
      py "                        };" ].

(* line 61 *)
Definition mbox_old5 : text :=
    py "addr.address.as_ref().unwrap_or(&String::new())".

Definition mbox_new5 : text :=
    py "addr.address.as_ref().map(|a| a.to_string()).unwrap_or_default()".

(* line 65 *)
Definition mbox_old6 : text :=
    py "addr.address.clone().unwrap_or_default()".

Definition mbox_new6 : text :=
    py "addr.address.as_ref().map(|a| a.to_string()).unwrap_or_default()".

(* line 79 *)
Definition msg_old1 : text :=
    py "use tracing::{debug, info, warn};".

Definition msg_new1 : text :=
    py "use tracing::{debug, info};".

(* line 82 *)
Definition msg_pattern2 : text :=
    py "(fn format_email_header\(&self, label: &str, value: &str\) -> TextRun \{\s+TextRun \{\s+text: format!\(" ++ dq ++ py "\{}: \{}\}\\n" ++ dq ++ py ", label, value\),\s+style: TextStyle \{\s+bold: label == " ++ dq ++ py "From" ++ dq ++ py " \|\| label == " ++ dq ++ py "To" ++ dq ++ py " \|\| label == " ++ dq ++ py "Subject" ++ dq ++ py ",\s+\.\.Default::default\(\)\s+\},)\s+(\})".

Definition msg_repl2 : text :=
    py "\1\n            bounds: None,\n            char_positions: None,\n        \2".

(* line 90 *)
Definition msg_pattern3 : text :=
    py "text_runs\.push\(TextRun \{\s+text: " ++ dq ++ py "\\n" ++ dq ++ py "\.to_string\(\),\s+style: Default::default\(\),\s+\}\);".

Definition msg_repl3 : text :=
    lines [
      py "text_runs.push(TextRun {";
      py "            text: " ++ dq ++ py "\n" ++ dq ++ py ".to_string(),";
      py "            style: Default::default(),";
      py "            bounds: None,";
      py "            char_positions: None,";
      py "        });" ].

(* line 101 *)
Definition msg_pattern4 : text :=
    py "text_runs\.push\(TextRun \{\s+text: body_text\.clone\(\),\s+style: Default::default\(\),\s+\}\);".

Definition msg_repl4 : text :=
    lines [
      py "text_runs.push(TextRun {";
      py "            text: body_text.clone(),";
      py "            style: Default::default(),";
      py "            bounds: None,";
      py "            char_positions: None,";
      py "        });" ].

(* line 113 *)
Definition msg_pattern5 : text :=
    py "let text_block = TextBlock \{\s+runs: text_runs,\s+bounds: None,\s+\};".

Definition msg_repl5 : text :=
    lines [
      py "let text_block = TextBlock {";
      py "            runs: text_runs,";
      py "            bounds: prism_core::document::Rect {";
      py "                x: 0.0,";
      py "                y: 0.0,";
      py "                width: Dimensions::LETTER.width,";
      py "                height: Dimensions::LETTER.height,";
      py "            },";
      py "            paragraph_style: None,";
      py "        };" ].

(* line 137 *)
Definition vcf_pattern1 : text :=
    py "(fn format_field\(&self, label: &str, value: &str, bold: bool\) -> TextRun \{\s+TextRun \{\s+text: format!\(" ++ dq ++ py "\{}: \{}\}\\n" ++ dq ++ py ", label, value\),\s+style: TextStyle \{\s+bold,\s+\.\.Default::default\(\)\s+\},)\s+(\})".

Definition vcf_repl1 : text :=
    py "\1\n            bounds: None,\n            char_positions: None,\n        \2".

(* line 145 *)
Definition vcf_pattern2 : text :=
    py "text_runs\.push\(TextRun \{\s+text: " ++ dq ++ py "\\nNote:\\n" ++ dq ++ py "\.to_string\(\),\s+style: TextStyle \{\s+bold: true,\s+\.\.Default::default\(\)\s+\},\s+\}\);".

Definition vcf_repl2 : text :=
    lines [
      py "text_runs.push(TextRun {";
      py "                text: " ++ dq ++ py "\nNote:\n" ++ dq ++ py ".to_string(),";
      py "                style: TextStyle {";
      py "                    bold: true,";
      py "                    ..Default::default()";
      py "                },";
      py "                bounds: None,";
      py "                char_positions: None,";
      py "            });" ].

(* line 160 *)
Definition vcf_pattern3 : text :=
    py "text_runs\.push\(TextRun \{\s+text: format!\(" ++ dq ++ py "\{}\}\\n" ++ dq ++ py ", note\),\s+style: Default::default\(\),\s+\}\);".

Definition vcf_repl3 : text :=
    lines [
      py "text_runs.push(TextRun {";
      py "                text: format!(" ++ dq ++ py "{}\n" ++ dq ++ py ", note),";
      py "                style: Default::default(),";
      py "                bounds: None,";
      py "                char_positions: None,";
      py "            });" ].

(* line 172 *)
Definition vcf_pattern4 : text :=
    py "let text_block = TextBlock \{\s+runs: text_runs,\s+bounds: None,\s+\};".

Definition vcf_repl4 : text :=
    lines [
      py "let text_block = TextBlock {";
      py "                runs: text_runs,";
      py "                bounds: prism_core::document::Rect {";
      py "                    x: 0.0,";
      py "                    y: 0.0,";
      py "                    width: Dimensions::LETTER.width,";
      py "                    height: Dimensions::LETTER.height,";
      py "                },";
      py "                paragraph_style: None,";
      py "            };" ].

(* line 188 *)
Definition vcf_pattern5 : text :=
    py "\.filter\(\|s\| !s\.is_empty\(\)\)".

Definition vcf_repl5 : text :=
    py ".filter(|s: &&str| !s.is_empty())".


(** ** The three fix routines *)

Inductive rule : Type :=
  | RSub (pattern repl : text) (flags : list flag)
  | RReplace (old new : text).

Definition apply_rule (r : rule) (s : text) : outcome (text * nat) :=
  match r with
  | RSub pattern repl flags => re_subn pattern repl s flags
  | RReplace old new => Ok (str_replace_count old new s)
  end.

(** The statements of each routine between reading and writing, in
    order. *)
Definition mbox_rules : list rule :=
  [ RSub mbox_pattern1 mbox_repl1 [DOTALL];
    RSub mbox_pattern2 mbox_repl2 [];
    RSub mbox_pattern3 mbox_repl3 [];
    RSub mbox_pattern4 mbox_repl4 [];
    RReplace mbox_old5 mbox_new5;
    RReplace mbox_old6 mbox_new6 ].

Definition msg_rules : list rule :=
  [ RReplace msg_old1 msg_new1;
    RSub msg_pattern2 msg_repl2 [DOTALL];
    RSub msg_pattern3 msg_repl3 [];
    RSub msg_pattern4 msg_repl4 [];
    RSub msg_pattern5 msg_repl5 [] ].

Definition vcf_rules : list rule :=
  [ RSub vcf_pattern1 vcf_repl1 [DOTALL];
    RSub vcf_pattern2 vcf_repl2 [];
    RSub vcf_pattern3 vcf_repl3 [];
    RSub vcf_pattern4 vcf_repl4 [];
    RSub vcf_pattern5 vcf_repl5 [] ].

(** *** Analysis of patterns and replacements *)

Definition lit (s : text) : list item := map (fun c => IOne (AChar c)) s.

Definition compile_rule (r : rule) : outcome (list item * list titem) :=
  match r with
  | RSub pattern repl _ =>
      bind_outcome (re_compile pattern) (fun pn =>
      bind_outcome (parse_template pn.2 repl) (fun tm => Ok (pn.1, tm)))
  | RReplace old new => Ok (lit old, map TLit new)
  end.

Definition consuming (p : list item) : bool :=
  existsb (fun it => match it with IOne _ | IPlus _ => true | _ => false end) p.

Definition plus_on_space (p : list item) : bool :=
  forallb (fun it => match it with
                     | IPlus ASpace => true
                     | IPlus (AChar c) => is_space c
                     | _ => true
                     end) p.

(** One word of the pattern: a single blank for [\s] and [\s+]. *)
Definition canon (p : list item) : text :=
  flat_map (fun it => match it with
                      | IOne (AChar c) | IPlus (AChar c) => [c]
                      | IOne ASpace | IPlus ASpace => [32%N]
                      | _ => []
                      end) p.

Definition sp_cons (y : text) : text :=
  match y with
  | c :: _ => if (c =? 32)%N then y else 32%N :: y
  | [] => [32%N]
  end.

(** Every run of whitespace collapsed to one blank. *)
Fixpoint squash (s : text) : text :=
  match s with
  | [] => []
  | c :: s' => if is_space c then sp_cons (squash s') else c :: squash s'
  end.

Fixpoint group_items (k : nat) (p : list item) (inside : bool) : list item :=
  match p with
  | [] => []
  | it :: p' =>
      match it with
      | IOpen j => group_items k p' (if Nat.eqb j k then true else inside)
      | IClose j => if Nat.eqb j k then [] else group_items k p' inside
      | _ => if inside then it :: group_items k p' inside
             else group_items k p' inside
      end
  end.

(** The shape of every replacement a rule can produce. *)
Definition repl_items (p : list item) (tm : list titem) : list item :=
  flat_map (fun t => match t with
                     | TLit c => [IOne (AChar c)]
                     | TRef k => group_items k p false
                     end) tm.

Fixpoint tails_ne (s : text) : list text :=
  match s with
  | [] => []
  | _ :: s' => s :: tails_ne s'
  end.

Definition comparable_b (x y : text) : bool :=
  starts_with x y || starts_with y x.

Definition no_overlap (x y : text) : bool :=
  forallb (fun y2 => negb (comparable_b y2 x)) (tails_ne y)
  && forallb (fun x2 => negb (comparable_b x2 y)) (tails_ne x).

Definition nonempty (s : text) : bool :=
  match s with [] => false | _ :: _ => true end.

Definition shape (p : list item) : text := squash (canon p).

Definition rule_ok (c : list item * list titem) : bool :=
  consuming c.1 && plus_on_space c.1 && plus_on_space (repl_items c.1 c.2).

Fixpoint check_from (prev : list (list item)) (rest : list (list item * list titem))
  : bool :=
  match rest with
  | [] => true
  | c :: rest' =>
      rule_ok c
      && forallb (fun q => plus_on_space q
                           && no_overlap (shape q) (shape (repl_items c.1 c.2)))
                 (c.1 :: prev)
      && check_from (c.1 :: prev) rest'
  end.

Fixpoint compile_rules (rs : list rule) : outcome (list (list item * list titem)) :=
  match rs with
  | [] => Ok []
  | r :: rs' =>
      bind_outcome (compile_rule r) (fun c =>
      bind_outcome (compile_rules rs') (fun cs => Ok (c :: cs)))
  end.

(** *** Words of a pattern *)

(** What one item may consume. *)
Definition seg_ok (it : item) (g : text) : Prop :=
  match it with
  | IOne a => exists c, g = [c] /\ atom_ok a c = true
  | IPlus a => g <> [] /\ forallb (atom_ok a) g = true
  | IOpen _ | IClose _ => g = []
  end.

(** [w] is a word of the pattern [p]. *)
Definition lang (p : list item) (w : text) : Prop :=
  exists segs, Forall2 seg_ok p segs /\ concat segs = w.

(** Some part of [s] is a word of [p]. *)
Definition occurs (p : list item) (s : text) : Prop :=
  exists a w b, s = a ++ w ++ b /\ lang p w.

(** [old] is a substring of [s]. *)
Definition contains (old s : text) : Prop :=
  exists a b, s = a ++ old ++ b.

(** The pattern string compiles and has an occurrence in [s]. *)
Definition pattern_occurs (pattern s : text) : Prop :=
  exists p n, re_compile pattern = Ok (p, n) /\ occurs p s.

Definition rule_occurs (r : rule) (s : text) : Prop :=
  match r with
  | RSub pattern _ _ => pattern_occurs pattern s
  | RReplace old _ => contains old s
  end.

Fixpoint has_match (p : list item) (s : text) : bool :=
  match match_items p s with
  | Some _ => true
  | None => match s with
            | [] => false
            | _ :: s' => has_match p s'
            end
  end.

Fixpoint join (sep : text) (l : list text) : text :=
  match l with
  | [] => []
  | [x] => x
  | x :: l' => x ++ sep ++ join sep l'
  end.

(** No proper suffix of [old] is a prefix of it. *)
Definition unbordered (old : text) : bool :=
  forallb (fun t => negb (starts_with t old))
          (match old with [] => [] | _ :: t => tails_ne t end).

(** The items compiled from a pattern string. *)
Definition compiled (pattern : text) : list item :=
  match re_compile pattern with
  | Ok pn => pn.1
  | _ => []
  end.

Fixpoint next_char (p : list item) : option N :=
  match p with
  | IOne (AChar c) :: _ => Some c
  | IOpen _ :: p' | IClose _ :: p' => next_char p'
  | _ => None
  end.

(** Every [+] is followed by a literal character outside its class, and
    the pattern has no bare [\s]. *)
Fixpoint anchored (p : list item) : bool :=
  match p with
  | [] => true
  | it :: p' =>
      match it with
      | IPlus a =>
          match next_char p' with
          | Some c => negb (atom_ok a c)
          | None => false
          end
      | IOne ASpace => false
      | _ => true
      end && anchored p'
  end.

(** The construct a pattern targets, laid out with the given runs of
    characters in place of its [+] items: one segment per item. *)
Fixpoint fill (p : list item) (runs : list text) : list text :=
  match p with
  | [] => []
  | IPlus _ :: p' =>
      match runs with
      | g :: runs' => g :: fill p' runs'
      | [] => [] :: fill p' []
      end
  | IOne (AChar c) :: p' => [c] :: fill p' runs
  | _ :: p' => [] :: fill p' runs
  end.

Definition layout (p : list item) (runs : list text) : text :=
  concat (fill p runs).

Fixpoint runs_ok (p : list item) (runs : list text) : bool :=
  match p with
  | [] => match runs with [] => true | _ :: _ => false end
  | IPlus a :: p' =>
      match runs with
      | g :: runs' => nonempty g && forallb (atom_ok a) g && runs_ok p' runs'
      | [] => false
      end
  | _ :: p' => runs_ok p' runs
  end.

(** *** The text transformations *)

Global Instance outcome_ret : MRet outcome := @Ok.
Global Instance outcome_bind : MBind outcome :=
  fun A B f o => bind_outcome o f.

Definition fix_mbox_text (content : text) : outcome text :=
  content ← re_sub mbox_pattern1 mbox_repl1 content [DOTALL];
  content ← re_sub mbox_pattern2 mbox_repl2 content [];
  content ← re_sub mbox_pattern3 mbox_repl3 content [];
  content ← re_sub mbox_pattern4 mbox_repl4 content [];
  let content := str_replace mbox_old5 mbox_new5 content in
  let content := str_replace mbox_old6 mbox_new6 content in
  mret content.

Definition fix_msg_text (content : text) : outcome text :=
  let content := str_replace msg_old1 msg_new1 content in
  content ← re_sub msg_pattern2 msg_repl2 content [DOTALL];
  content ← re_sub msg_pattern3 msg_repl3 content [];
  content ← re_sub msg_pattern4 msg_repl4 content [];
  content ← re_sub msg_pattern5 msg_repl5 content [];
  mret content.

Definition fix_vcf_text (content : text) : outcome text :=
  content ← re_sub vcf_pattern1 vcf_repl1 content [DOTALL];
  content ← re_sub vcf_pattern2 vcf_repl2 content [];
  content ← re_sub vcf_pattern3 vcf_repl3 content [];
  content ← re_sub vcf_pattern4 vcf_repl4 content [];
  content ← re_sub vcf_pattern5 vcf_repl5 content [];
  mret content.

(** A sequence of rules applied as the routines do: each rule on the
    result of the one before.  The second component lists the match
    counts of the rules applied so far. *)
Fixpoint run_rules (rs : list rule) (s : text) : list nat * outcome text :=
  match rs with
  | [] => ([], Ok s)
  | r :: rs' =>
      match apply_rule r s with
      | Ok (s', n) => let res := run_rules rs' s' in (n :: res.1, res.2)
      | Malformed => ([], Malformed)
      | Unsupported => ([], Unsupported)
      end
  end.

(** The same sequence on compiled rules. *)
Definition step (c : list item * list titem) (s : text) : text :=
  (sub_scan c.1 c.2 s 0).1.

Definition run_compiled (cs : list (list item * list titem)) (s : text) : text :=
  fold_left (fun s c => step c s) cs s.

(** ** Files *)

Inductive exn : Type :=
  | FileNotFoundError (path : string)
  | PermissionError (path : string)
  | ReError
  | OutsideFragment
  | OSError (path : string).

Inductive event : Type :=
  | EvRead (path : string)
  | EvWrite (path : string) (content : text)
  | EvPrint (msg : string).

(** The files hold the text that reading yields and writing stores. *)
Record world : Type := World {
  files : gmap string text;
  readonly : gset string;
  events : list event
}.

Inductive result (A : Type) : Type :=
  | Val (a : A)
  | Raise (e : exn).
Arguments Val {A} a.
Arguments Raise {A} e.

Definition IO (A : Type) : Type := world -> result A * world.

Global Instance IO_ret : MRet IO := fun A a w => (Val a, w).
Global Instance IO_bind : MBind IO := fun A B f m w =>
  match m w with
  | (Val a, w') => f a w'
  | (Raise e, w') => (Raise e, w')
  end.

Definition emit (e : event) (w : world) : world :=
  World (files w) (readonly w) (events w ++ [e]).

(** [open(path, 'r').read()] *)
Definition read_text (path : string) : IO text := fun w =>
  match files w !! path with
  | Some t => (Val t, emit (EvRead path) w)
  | None => (Raise (FileNotFoundError path), w)
  end.

(** [open(path, 'w').write(content)] on a device that takes the whole
    text: the only failure left is that of [open].  The two steps, and
    the write that stops part-way, are [open_write] and [write_chars]
    below. *)
Definition write_text (path : string) (content : text) : IO unit := fun w =>
  if decide (path ∈ readonly w)
  then (Raise (PermissionError path), w)
  else (Val tt, World (<[path := content]> (files w)) (readonly w)
                      (events w ++ [EvWrite path content])).






Definition print (msg : string) : IO unit := fun w =>
  (Val tt, emit (EvPrint msg) w).

Definition lift_outcome {A} (o : outcome A) : IO A := fun w =>
  match o with
  | Ok a => (Val a, w)
  | Malformed => (Raise ReError, w)
  | Unsupported => (Raise OutsideFragment, w)
  end.

Definition mbox_path : string := "crates/prism-parsers/src/email/mbox.rs".
Definition msg_path : string := "crates/prism-parsers/src/email/msg.rs".
Definition vcf_path : string := "crates/prism-parsers/src/email/vcf.rs".

Definition fix_mbox : IO unit :=
  content ← read_text mbox_path;
  content ← lift_outcome (fix_mbox_text content);
  _ ← write_text mbox_path content;
  print "Fixed mbox.rs".

Definition fix_msg : IO unit :=
  content ← read_text msg_path;
  content ← lift_outcome (fix_msg_text content);
  _ ← write_text msg_path content;
  print "Fixed msg.rs".

Definition fix_vcf : IO unit :=
  content ← read_text vcf_path;
  content ← lift_outcome (fix_vcf_text content);
  _ ← write_text vcf_path content;
  print "Fixed vcf.rs".




Definition main : IO unit :=
  _ ← fix_mbox;
  _ ← fix_msg;
  _ ← fix_vcf;
  print "All email parsers fixed!".

(** *** Overlapping occurrences *)

Definition comparable (x y : text) : Prop :=
  x `prefix_of` y \/ y `prefix_of` x.

(** Occurrences of [x] and [y] in one text can share a position. *)
Definition overlap (x y : text) : Prop :=
  (exists y2, y2 <> [] /\ y2 `suffix_of` y /\ comparable y2 x)
  \/ (exists x2, x2 <> [] /\ x2 `suffix_of` x /\ comparable x2 y).

(** *** The compiled rule sequences *)

Definition compiled_rules (rs : list rule) : list (list item * list titem) :=
  match compile_rules rs with
  | Ok cs => cs
  | _ => []
  end.

Definition mbox_compiled : list (list item * list titem) :=
  Eval vm_compute in compiled_rules mbox_rules.

Definition msg_compiled : list (list item * list titem) :=
  Eval vm_compute in compiled_rules msg_rules.

Definition vcf_compiled : list (list item * list titem) :=
  Eval vm_compute in compiled_rules vcf_rules.

(** Executable test for [rule_occurs]. *)
Definition rule_occurs_b (r : rule) (s : text) : bool :=
  match r with
  | RSub pattern _ _ =>
      match re_compile pattern with
      | Ok pn => has_match pn.1 s
      | _ => false
      end
  | RReplace old _ => has_match (lit old) s
  end.

Definition untouched_by (rs : list rule) (s : text) : bool :=
  forallb (fun r => negb (rule_occurs_b r s)) rs.

(** ** Constructs and texts named in the statements *)

(** A non-empty run of whitespace. *)
Definition blank (w : text) : bool := nonempty w && forallb is_space w.

(** The patterns of all [re.sub] calls of the script. *)
Definition structural_patterns : list text :=
  [ mbox_pattern1; mbox_pattern2; mbox_pattern3; mbox_pattern4;
    msg_pattern2; msg_pattern3; msg_pattern4; msg_pattern5;
    vcf_pattern1; vcf_pattern2; vcf_pattern3; vcf_pattern4; vcf_pattern5 ].

Definition textrun_input : text :=
  py "TextRun { text: " ++ dq ++ py "x" ++ dq
  ++ py ".to_string(), style: Default::default() }".

Definition textrun_expected : text :=
  py "TextRun { text: " ++ dq ++ py "x" ++ dq
  ++ py ".to_string(), style: Default::default(), bounds: None, char_positions: None }".

(** The call the third rule of [fix_mbox] targets, with the whitespace
    [w1], [w2], [w3] between its tokens. *)
Definition body_run (w1 w2 w3 : text) : text :=
  py "text_runs.push(TextRun {" ++ w1 ++ py "text: body_text," ++ w2
  ++ py "style: Default::default()," ++ w3 ++ py "});".

(** The call the second rule of [fix_mbox] targets. *)
Definition newline_run (w1 w2 w3 : text) : text :=
  py "text_runs.push(TextRun {" ++ w1
  ++ py "text: " ++ dq ++ py "\n" ++ dq ++ py ".to_string()," ++ w2
  ++ py "style: Default::default()," ++ w3 ++ py "});".

Definition body_run_fixed : text :=
  lines [
    py "text_runs.push(TextRun {";
    py "            text: body_text,";
    py "            style: Default::default(),";
    py "            bounds: None,";
    py "            char_positions: None,";
    py "        });" ].

Definition inserted_fields : text :=
  lines [
    py "            bounds: None,";
    py "            char_positions: None,";
    py "        });" ].

(** The header method in the shape the first rule of [fix_mbox]
    matches, on one line and spread over several. *)
Definition header_compact : text :=
  py "fn format_email_header(&self, label: &str, value: &str) -> TextRun { TextRun { text: format!("
  ++ dq ++ py "{}: {}}\n" ++ dq
  ++ py ", label, value), style: TextStyle { bold: label == "
  ++ dq ++ py "From" ++ dq ++ py " || label == " ++ dq ++ py "To" ++ dq
  ++ py " || label == " ++ dq ++ py "Subject" ++ dq
  ++ py ", ..Default::default() }, }".

Definition header_multiline : text :=
  lines [
    py "fn format_email_header(&self, label: &str, value: &str) -> TextRun {";
    py "        TextRun {";
    py "            text: format!(" ++ dq ++ py "{}: {}}\n" ++ dq ++ py ", label, value),";
    py "            style: TextStyle {";
    py "                bold: label == " ++ dq ++ py "From" ++ dq ++ py " || label == "
      ++ dq ++ py "To" ++ dq ++ py " || label == " ++ dq ++ py "Subject" ++ dq ++ py ",";
    py "                ..Default::default()";
    py "            },";
    py "        }" ].

Definition plain_text : text := py "fn main() { println!(); }".

(** Number of [+] items of a pattern. *)
Fixpoint plus_count (p : list item) : nat :=
  match p with
  | [] => 0
  | IPlus _ :: p' => S (plus_count p')
  | _ :: p' => plus_count p'
  end.

(** Every [+] of the pattern is [\s+]. *)
Definition only_space_plus (p : list item) : bool :=
  forallb (fun it => match it with IPlus (AChar _) => false | _ => true end) p.

(** The items are literal characters and group marks only. *)
Definition literal_only (p : list item) : bool :=
  forallb (fun it => match it with
                     | IOne (AChar _) | IOpen _ | IClose _ => true
                     | _ => false
                     end) p.

Definition pattern_facts (pattern : text) : bool :=
  match re_compile pattern with
  | Ok pn => anchored pn.1 && only_space_plus pn.1 && plus_on_space pn.1
             && consuming pn.1
  | _ => false
  end.

(** The common shape of the three routines: read, transform in memory,
    write, report. *)
Definition fix_file (path : string) (f : text -> outcome text) (msg : string)
  : IO unit :=
  content ← read_text path;
  content ← lift_outcome (f content);
  _ ← write_text path content;
  print msg.

(** What a routine of that shape does to the world. *)
Definition fix_file_result (path : string) (f : text -> outcome text)
    (msg : string) (w : world) : result unit * world :=
  match files w !! path with
  | None => (Raise (FileNotFoundError path), w)
  | Some t =>
      match f t with
      | Ok out =>
          if decide (path ∈ readonly w)
          then (Raise (PermissionError path), emit (EvRead path) w)
          else (Val tt,
                World (<[path := out]> (files w)) (readonly w)
                      (events w ++ [EvRead path; EvWrite path out; EvPrint msg]))
      | Malformed => (Raise ReError, emit (EvRead path) w)
      | Unsupported => (Raise OutsideFragment, emit (EvRead path) w)
      end
  end.






Definition sample_world : world :=
  World {[ mbox_path := header_compact ]} ∅ [].

Definition other_world : world :=
  World (<[ msg_path := plain_text ]> {[ mbox_path := header_compact ]}) ∅
        [EvPrint "start"].

(** ** Texts named in the further properties *)

(** The [text:] field that the header rules look for: the format string
    has two closing braces after the second placeholder. *)
Definition brace_literal : text :=
  py "text: format!(" ++ dq ++ py "{}: {}}\n" ++ dq ++ py ", label, value),".

(** The same for the note rule of [fix_vcf]. *)
Definition note_brace_literal : text :=
  py "text: format!(" ++ dq ++ py "{}}\n" ++ dq ++ py ", note),".

(** The header method with the format string [{}: {}\n]. *)
Definition plain_header : text :=
  lines [
    py "fn format_email_header(&self, label: &str, value: &str) -> TextRun {";
    py "        TextRun {";
    py "            text: format!(" ++ dq ++ py "{}: {}\n" ++ dq ++ py ", label, value),";
    py "            style: TextStyle {";
    py "                bold: label == " ++ dq ++ py "From" ++ dq ++ py " || label == "
      ++ dq ++ py "To" ++ dq ++ py " || label == " ++ dq ++ py "Subject" ++ dq ++ py ",";
    py "                ..Default::default()";
    py "            },";
    py "        }" ].

Fixpoint infix_b (x y : text) : bool :=
  starts_with x y
  || match y with
     | [] => false
     | _ :: y' => infix_b x y'
     end.

(** No pattern of the rules can occur in a text of the shape [f]. *)
Definition shapes_absent (cs : list (list item * list titem)) (f : text) : bool :=
  forallb (fun c => plus_on_space c.1 && negb (infix_b (shape c.1) f)) cs.

(** The body-text call and the [TextBlock] construction written without
    a comma after the last field. *)
Definition body_run_no_comma (w1 w2 w3 : text) : text :=
  py "text_runs.push(TextRun {" ++ w1 ++ py "text: body_text," ++ w2
  ++ py "style: Default::default()" ++ w3 ++ py "});".

Definition text_block_no_comma (w1 w2 w3 : text) : text :=
  py "let text_block = TextBlock {" ++ w1 ++ py "runs: text_runs," ++ w2
  ++ py "bounds: None" ++ w3 ++ py "};".

(** The two constructs as patterns, for their layouts. *)
Definition body_run_no_comma_form : text :=
  py "text_runs\.push\(TextRun \{\s+text: body_text,\s+style: Default::default\(\)\s+\}\);".

Definition text_block_no_comma_form : text :=
  py "let text_block = TextBlock \{\s+runs: text_runs,\s+bounds: None\s+\};".

(** What the header rules put before the closing brace. *)
Definition header_fields : text :=
  nl ++ py "            bounds: None," ++ nl
  ++ py "            char_positions: None," ++ nl ++ py "        ".

(** What the newline rule writes: the string literal holds a line feed. *)
Definition newline_run_fixed : text :=
  lines [
    py "text_runs.push(TextRun {";
    py "            text: " ++ dq ++ nl ++ dq ++ py ".to_string(),";
    py "            style: Default::default(),";
    py "            bounds: None,";
    py "            char_positions: None,";
    py "        });" ].

(** ** The effect of the routines on the files *)

(** A routine can run on [path]: the file exists and may be written. *)
Definition usable (w : world) (path : string) : Prop :=
  is_Some (files w !! path) /\ path ∉ readonly w.

(** One routine as a function on the files: [None] when it raises. *)
Definition stage_files (path : string) (g : text -> text) (ro : gset string)
    (fs : gmap string text) : option (gmap string text) :=
  match fs !! path with
  | Some t => if decide (path ∈ ro) then None else Some (<[path := g t]> fs)
  | None => None
  end.

(** The three routines in the order of the main block; the run ends at
    the first one that raises. *)
Definition main_files (g1 g2 g3 : text -> text) (ro : gset string)
    (fs : gmap string text) : bool * gmap string text :=
  match stage_files mbox_path g1 ro fs with
  | None => (false, fs)
  | Some fs1 =>
      match stage_files msg_path g2 ro fs1 with
      | None => (false, fs1)
      | Some fs2 =>
          match stage_files vcf_path g3 ro fs2 with
          | None => (false, fs2)
          | Some fs3 => (true, fs3)
          end
      end
  end.

Definition succeeded {A} (r : result A) : bool :=
  match r with Val _ => true | Raise _ => false end.

(** The transformations as functions on texts. *)
Definition g_mbox : text -> text := run_compiled mbox_compiled.
Definition g_msg : text -> text := run_compiled msg_compiled.
Definition g_vcf : text -> text := run_compiled vcf_compiled.

(** The exception a routine raises on a file it cannot use. *)
Definition failure (w : world) (path : string) : exn :=
  match files w !! path with
  | None => FileNotFoundError path
  | Some _ => PermissionError path
  end.

(** A world that holds the three files and one more. *)
Definition full_world : world :=
  World (<[ "README.md" := plain_text ]>
          (<[ vcf_path := plain_text ]>
            (<[ msg_path := plain_text ]> {[ mbox_path := header_compact ]})))
        ∅ [].

(** The same files with [msg.rs] read-only. *)
Definition locked_world : world :=
  World (files full_world) {[ msg_path ]} [].

(** The text the last pattern of [fix_vcf] stands for. *)
Definition filter_old : text := py ".filter(|s| !s.is_empty())".

(** [s.replace(old, new)] described by the pieces between the
    occurrences of [old]. *)
Definition replaces_all (old new s out : text) : Prop :=
  exists l,
    l <> []
    /\ s = join old l
    /\ out = join new l
    /\ Forall (fun piece => ~ contains old piece) l
    /\ (forall a b, s = a ++ old ++ b ->
          exists l1 l2, l = l1 ++ l2 /\ l1 <> [] /\ l2 <> []
                        /\ a = join old l1 /\ b = join old l2).

(** * Properties of the matcher *)

Section Matcher.

Lemma greedy_inv {A} (f : nat -> option A) n r :
  greedy f n = Some r -> exists k, 1 <= k <= n /\ f k = Some r.
Proof.
  induction n as [|n IH]; simpl; [discriminate|].
  destruct (f (S n)) eqn:E.
  - intros [= <-]. exists (S n). split; [lia | assumption].
  - intros H. destruct (IH H) as (k & Hk & Hf). exists k. split; [lia | assumption].
Qed.

Lemma greedy_some {A} (f : nat -> option A) n k :
  1 <= k <= n -> is_Some (f k) -> is_Some (greedy f n).
Proof.
  induction n as [|n IH]; intros Hk Hs; [lia|].
  simpl. destruct (f (S n)) eqn:E; [eauto|].
  apply IH; [|assumption].
  destruct (decide (k = S n)) as [->|]; [|lia].
  rewrite E in Hs. destruct Hs as [? [=]].
Qed.

Lemma greedy_first {A} (f : nat -> option A) n r :
  f (S n) = Some r -> greedy f (S n) = Some r.
Proof. intros H. simpl. now rewrite H. Qed.

Lemma run_length_take a s k :
  k <= run_length a s ->
  forallb (atom_ok a) (take k s) = true /\ length (take k s) = k.
Proof.
  revert k. induction s as [|c s IH]; intros k Hk; simpl in *.
  - assert (k = 0) as -> by lia. auto.
  - destruct k as [|k]; [auto|]. simpl.
    destruct (atom_ok a c) eqn:E; [|lia].
    destruct (IH k) as [H1 H2]; [lia|]. rewrite H1, H2. auto.
Qed.

Lemma run_length_app a g x :
  forallb (atom_ok a) g = true -> length g <= run_length a (g ++ x).
Proof.
  induction g as [|c g IH]; simpl; [lia|].
  intros H. apply andb_true_iff in H as [H1 H2]. rewrite H1.
  specialize (IH H2). lia.
Qed.

Lemma run_length_exact a g c x :
  forallb (atom_ok a) g = true -> atom_ok a c = false ->
  run_length a (g ++ c :: x) = length g.
Proof.
  induction g as [|d g IH]; simpl; intros H Hc.
  - now rewrite Hc.
  - apply andb_true_iff in H as [H1 H2]. rewrite H1. f_equal. auto.
Qed.

Lemma match_sound p : forall s segs,
  match_items p s = Some segs ->
  Forall2 seg_ok p segs /\ exists rest, s = concat segs ++ rest.
Proof.
  induction p as [|it p IH]; intros s segs H; simpl in H.
  - injection H as <-. split; [constructor|]. now exists s.
  - destruct it as [a|a|k|k].
    + destruct s as [|c s]; [discriminate|].
      destruct (atom_ok a c) eqn:E; [|discriminate].
      apply fmap_Some in H as (segs' & Hm & ->).
      destruct (IH _ _ Hm) as (HF & rest & ->).
      split; [constructor; [exists c; auto | assumption]|].
      now exists rest.
    + apply greedy_inv in H as (k & Hk & H).
      apply fmap_Some in H as (segs' & Hm & ->).
      destruct (IH _ _ Hm) as (HF & rest & Hr).
      destruct (run_length_take a s k) as [H1 H2]; [lia|].
      split.
      * constructor; [|assumption]. split; [|assumption].
        intros Hnil. rewrite Hnil in H2. simpl in H2. lia.
      * exists rest. simpl. rewrite <- app_assoc, <- Hr. now rewrite take_drop.
    + apply fmap_Some in H as (segs' & Hm & ->).
      destruct (IH _ _ Hm) as (HF & rest & ->).
      split; [constructor; [reflexivity | assumption]|]. now exists rest.
    + apply fmap_Some in H as (segs' & Hm & ->).
      destruct (IH _ _ Hm) as (HF & rest & ->).
      split; [constructor; [reflexivity | assumption]|]. now exists rest.
Qed.

Lemma match_complete p : forall segs rest,
  Forall2 seg_ok p segs -> is_Some (match_items p (concat segs ++ rest)).
Proof.
  induction p as [|it p IH]; intros segs rest HF.
  - simpl. eauto.
  - inversion HF as [|? g ? segs' Hg HF']; subst. simpl.
    destruct it as [a|a|k|k]; simpl in Hg.
    + destruct Hg as (c & -> & Hc). simpl. rewrite Hc.
      destruct (IH segs' rest HF') as [r Hr]. rewrite Hr. simpl. eauto.
    + destruct Hg as [Hne Hall].
      apply (greedy_some _ _ (length g)).
      * split.
        -- destruct g; [congruence | simpl; lia].
        -- rewrite <- app_assoc. now apply run_length_app.
      * rewrite <- app_assoc. rewrite drop_app_length.
        destruct (IH segs' rest HF') as [r Hr]. rewrite Hr. simpl. eauto.
    + subst g. simpl. destruct (IH segs' rest HF') as [r Hr]. rewrite Hr. simpl. eauto.
    + subst g. simpl. destruct (IH segs' rest HF') as [r Hr]. rewrite Hr. simpl. eauto.
Qed.

Lemma match_lang p s segs :
  match_items p s = Some segs -> lang p (concat segs).
Proof. intros H. exists segs. split; [apply (match_sound p s segs H) | reflexivity]. Qed.

Lemma lang_match p w rest : lang p w -> is_Some (match_items p (w ++ rest)).
Proof. intros (segs & HF & <-). now apply match_complete. Qed.

Lemma consuming_nonempty p segs :
  consuming p = true -> Forall2 seg_ok p segs -> concat segs <> [].
Proof.
  intros Hc HF. induction HF as [|it g p segs Hg HF IH]; simpl in *; [discriminate|].
  destruct it as [a|a|k|k]; simpl in *.
  - destruct Hg as (c & -> & _). discriminate.
  - destruct Hg as [Hne _]. destruct g; [congruence | discriminate].
  - subst g. simpl. auto.
  - subst g. simpl. auto.
Qed.

Lemma consuming_no_empty_match p :
  consuming p = true -> match_items p [] = None.
Proof.
  intros Hc. destruct (match_items p []) as [segs|] eqn:E; [|reflexivity].
  destruct (match_sound _ _ _ E) as (HF & rest & Hr).
  exfalso. apply (consuming_nonempty p segs Hc HF).
  destruct (concat segs); [reflexivity | discriminate].
Qed.

End Matcher.

(** * Properties of the scan *)

Section Scan.

Variable p : list item.
Variable tm : list titem.

Lemma sub_scan_skip a s :
  sub_scan p tm (a ++ s) (length a) = sub_scan p tm s 0.
Proof. induction a as [|c a IH]; simpl; auto. Qed.

Lemma sub_scan_nomatch c s :
  match_items p (c :: s) = None ->
  sub_scan p tm (c :: s) 0 = (c :: (sub_scan p tm s 0).1, (sub_scan p tm s 0).2).
Proof. intros H. simpl. now rewrite H. Qed.

Lemma sub_scan_match s segs rest :
  consuming p = true ->
  match_items p s = Some segs -> s = concat segs ++ rest ->
  sub_scan p tm s 0
  = (expand tm p segs ++ (sub_scan p tm rest 0).1, S (sub_scan p tm rest 0).2).
Proof.
  intros Hc Hm Hs.
  pose proof (consuming_nonempty p segs Hc (proj1 (match_sound _ _ _ Hm))) as Hne.
  destruct (concat segs) as [|c w] eqn:Ew; [congruence|].
  subst s. simpl in Hm |- *. rewrite Hm, Ew. simpl.
  rewrite Nat.sub_0_r. now rewrite sub_scan_skip.
Qed.

Lemma has_match_cons c s :
  has_match p (c :: s) = true <->
  is_Some (match_items p (c :: s)) \/ has_match p s = true.
Proof.
  simpl. destruct (match_items p (c :: s)); split; intros H; eauto.
  destruct H as [[? [=]]|H]; assumption.
Qed.

Lemma has_match_head s :
  is_Some (match_items p s) -> has_match p s = true.
Proof.
  intros [r Hr]. destruct s; simpl; now rewrite Hr.
Qed.

Lemma has_match_occurs s : has_match p s = true <-> occurs p s.
Proof.
  split.
  - induction s as [|c s IH]; intros H.
    + simpl in H. destruct (match_items p []) as [segs|] eqn:E; [|discriminate].
      destruct (match_sound _ _ _ E) as (HF & rest & Hr).
      exists [], (concat segs), rest. split; [assumption|].
      exists segs. auto.
    + apply has_match_cons in H as [[segs E]|H].
      * destruct (match_sound _ _ _ E) as (HF & rest & Hr).
        exists [], (concat segs), rest. split; [assumption|].
        exists segs. auto.
      * destruct (IH H) as (a & w & b & -> & Hw).
        exists (c :: a), w, b. auto.
  - intros (a & w & b & -> & Hw).
    induction a as [|c a IH].
    + apply has_match_head. now apply (lang_match p w b).
    + simpl app. apply has_match_cons. now right.
Qed.

Lemma sub_scan_no_match s :
  has_match p s = false -> sub_scan p tm s 0 = (s, 0).
Proof.
  induction s as [|c s IH]; intros H.
  - simpl in *. destruct (match_items p []); [discriminate | reflexivity].
  - simpl in H. destruct (match_items p (c :: s)) eqn:E; [discriminate|].
    rewrite sub_scan_nomatch by assumption. now rewrite IH.
Qed.

Lemma sub_scan_free s :
  ~ occurs p s -> sub_scan p tm s 0 = (s, 0).
Proof.
  intros H. apply sub_scan_no_match.
  destruct (has_match p s) eqn:E; [|reflexivity].
  exfalso. apply H. now apply has_match_occurs.
Qed.

(** The leftmost match is found, replaced, and the scan goes on with the
    text after its end. *)
Lemma sub_scan_first :
  consuming p = true ->
  forall s,
    (has_match p s = false /\ sub_scan p tm s 0 = (s, 0))
    \/ exists u segs rest,
         s = u ++ concat segs ++ rest
         /\ match_items p (concat segs ++ rest) = Some segs
         /\ (forall u1 u2, u = u1 ++ u2 -> u2 <> [] ->
             match_items p (u2 ++ concat segs ++ rest) = None)
         /\ sub_scan p tm s 0
            = (u ++ expand tm p segs ++ (sub_scan p tm rest 0).1,
               S (sub_scan p tm rest 0).2).
Proof.
  intros Hc. induction s as [|c s IH].
  - left. split; [|apply sub_scan_no_match]; simpl;
      now rewrite consuming_no_empty_match.
  - destruct (match_items p (c :: s)) as [segs|] eqn:E.
    + right. destruct (match_sound _ _ _ E) as (HF & rest & Hr).
      exists [], segs, rest. rewrite <- Hr.
      split; [reflexivity|]. split; [assumption|]. split.
      * intros u1 u2 Hu Hne. symmetry in Hu.
        apply app_eq_nil in Hu as [_ ->]. congruence.
      * now apply sub_scan_match.
    + destruct IH as [[Hh Hs]|(u & segs & rest & Hs & Hm & Hu & Ho)].
      * left. split; [simpl; now rewrite E|].
        rewrite sub_scan_nomatch by assumption. now rewrite Hs.
      * right. exists (c :: u), segs, rest. subst s.
        split; [reflexivity|]. split; [assumption|]. split.
        -- intros u1 u2 Hu12 Hne. destruct u1 as [|d u1]; simpl in Hu12.
           ++ subst u2. exact E.
           ++ injection Hu12 as -> ->. now apply (Hu u1 u2).
        -- rewrite sub_scan_nomatch by assumption. now rewrite Ho.
Qed.

End Scan.

(** * Whitespace-insensitive shapes *)

Section Squash.

Lemma sp_cons_head y : exists t, sp_cons y = 32%N :: t.
Proof.
  destruct y as [|c y]; simpl; [eauto|].
  destruct (N.eqb_spec c 32) as [->|]; eauto.
Qed.

Lemma sp_cons_idem y : sp_cons (sp_cons y) = sp_cons y.
Proof. destruct (sp_cons_head y) as [t ->]. reflexivity. Qed.

Lemma sp_cons_app y z : y <> [] -> sp_cons (y ++ z) = sp_cons y ++ z.
Proof.
  destruct y as [|c y]; [congruence|]. intros _. simpl.
  destruct (c =? 32)%N; reflexivity.
Qed.

Lemma squash_nil_inv s : squash s = [] -> s = [].
Proof.
  destruct s as [|c s]; [reflexivity|]. simpl.
  destruct (is_space c); [|discriminate].
  destruct (sp_cons_head (squash s)) as [t ->]. discriminate.
Qed.

Lemma squash_run g x :
  g <> [] -> forallb is_space g = true ->
  squash (g ++ x) = sp_cons (squash x).
Proof.
  induction g as [|c g IH]; [congruence|]. intros _ H.
  simpl in H. apply andb_true_iff in H as [Hc Hg]. simpl. rewrite Hc.
  destruct g as [|d g]; [reflexivity|].
  rewrite IH by (congruence || assumption). apply sp_cons_idem.
Qed.

Lemma squash_prefix x y : squash x `prefix_of` squash (x ++ y).
Proof.
  induction x as [|c x IH]; simpl.
  - apply prefix_nil.
  - destruct IH as [z Hz]. rewrite Hz.
    destruct (is_space c).
    + destruct (squash x) as [|d t] eqn:E.
      * simpl. destruct (sp_cons_head z) as [t ->]. now exists t.
      * rewrite sp_cons_app by discriminate. now exists z.
    + now exists z.
Qed.

Lemma squash_suffix x y : squash y `suffix_of` squash (x ++ y).
Proof.
  induction x as [|c x IH]; simpl.
  - reflexivity.
  - destruct IH as [z Hz]. rewrite Hz.
    destruct (is_space c).
    + destruct z as [|d t].
      * simpl. destruct (squash y) as [|e t]; simpl.
        -- now exists [32%N].
        -- destruct (e =? 32)%N; [now exists [] | now exists [32%N]].
      * rewrite sp_cons_app by discriminate. now exists (sp_cons (d :: t)).
    + now exists (c :: z).
Qed.

Lemma spacey_atom a d :
  match a with ASpace => true | AChar c => is_space c end = true ->
  atom_ok a d = true -> is_space d = true.
Proof.
  destruct a as [c|]; simpl; [|auto].
  intros Hc Hd. apply N.eqb_eq in Hd. now subst.
Qed.

Lemma lang_shape p segs :
  plus_on_space p = true -> Forall2 seg_ok p segs ->
  squash (concat segs) = shape p.
Proof.
  unfold shape. intros Hp HF. induction HF as [|it g p segs Hg HF IH]; [reflexivity|].
  simpl in Hp. apply andb_true_iff in Hp as [Hit Hp]. specialize (IH Hp).
  destruct it as [a|a|k|k]; simpl in Hg.
  - destruct Hg as (d & -> & Hd). destruct a as [c|]; simpl in Hd |- *.
    + apply N.eqb_eq in Hd. subst d. now rewrite IH.
    + rewrite Hd. now rewrite IH.
  - destruct Hg as [Hne Hall]. simpl.
    rewrite squash_run; [|assumption|].
    + rewrite IH. destruct a as [c|]; simpl; [now rewrite Hit | reflexivity].
    + apply forallb_forall. intros d Hd.
      rewrite forallb_forall in Hall.
      apply (spacey_atom a); [|now apply Hall].
      destruct a; assumption.
  - subst g. exact IH.
  - subst g. exact IH.
Qed.

Lemma lang_squash p w :
  plus_on_space p = true -> lang p w -> squash w = shape p.
Proof. intros Hp (segs & HF & <-). now apply lang_shape. Qed.

End Squash.

Section Overlap.

Lemma starts_with_prefix x : forall y,
  starts_with x y = true <-> x `prefix_of` y.
Proof.
  induction x as [|a x IH]; intros y; simpl.
  - split; [intros _; apply prefix_nil | reflexivity].
  - destruct y as [|b y].
    + split; [discriminate|]. intros [k Hk]. discriminate.
    + rewrite andb_true_iff, N.eqb_eq, IH. split.
      * intros [-> [k ->]]. now exists k.
      * intros [k Hk]. injection Hk as -> ->. split; [reflexivity | now exists k].
Qed.

Lemma comparable_b_spec x y : comparable_b x y = true <-> comparable x y.
Proof.
  unfold comparable_b, comparable.
  now rewrite orb_true_iff, !starts_with_prefix.
Qed.

Lemma tails_ne_suffix y2 : forall y,
  y2 <> [] -> y2 `suffix_of` y -> In y2 (tails_ne y).
Proof.
  intros y Hne [k ->]. induction k as [|c k IH]; simpl.
  - destruct y2; [congruence|]. simpl. now left.
  - now right.
Qed.

Lemma no_overlap_sound x y : no_overlap x y = true -> ~ overlap x y.
Proof.
  unfold no_overlap. rewrite andb_true_iff, !forallb_forall.
  intros [H1 H2] [(y2 & Hne & Hs & Hc)|(x2 & Hne & Hs & Hc)].
  - specialize (H1 y2 (tails_ne_suffix y2 y Hne Hs)).
    apply comparable_b_spec in Hc. now rewrite Hc in H1.
  - specialize (H2 x2 (tails_ne_suffix x2 x Hne Hs)).
    apply comparable_b_spec in Hc. now rewrite Hc in H2.
Qed.

Lemma squash_comparable x y :
  comparable x y -> comparable (squash x) (squash y).
Proof.
  intros [[k ->]|[k ->]]; [left | right]; apply squash_prefix.
Qed.

Lemma squash_overlap x y : overlap x y -> overlap (squash x) (squash y).
Proof.
  intros [(y2 & Hne & [k ->] & Hc)|(x2 & Hne & [k ->] & Hc)]; [left | right].
  - exists (squash y2). split; [|split].
    + intros E. now apply squash_nil_inv in E.
    + apply squash_suffix.
    + now apply squash_comparable.
  - exists (squash x2). split; [|split].
    + intros E. now apply squash_nil_inv in E.
    + apply squash_suffix.
    + now apply squash_comparable.
Qed.

Lemma app_comparable x y b c : x ++ b = y ++ c -> comparable x y.
Proof.
  intros H. apply app_eq_app in H as [l [[-> _]|[-> _]]].
  - right. now exists l.
  - left. now exists l.
Qed.

(** Two occurrences that share a position overlap. *)
Lemma intersect_overlap a w b u r c :
  a ++ w ++ b = u ++ r ++ c ->
  length a < length u + length r ->
  length u < length a + length w ->
  overlap w r.
Proof.
  intros H Ha Hu.
  apply app_eq_app in H as [l [[-> H]|[-> H]]].
  - rewrite length_app in Ha.
    symmetry in H. apply app_eq_app in H as [l' [[-> H]|[-> H]]].
    + rewrite length_app in Ha. lia.
    + left. exists l'. split; [|split].
      * intros ->. rewrite app_nil_r in Ha. lia.
      * now exists l.
      * apply (app_comparable _ _ c b). now symmetry.
  - rewrite length_app in Hu.
    apply app_eq_app in H as [l' [[-> H]|[-> H]]].
    + right. exists l'. split; [|split].
      * intros ->. rewrite app_nil_r in Hu. lia.
      * now exists l.
      * apply (app_comparable _ _ b c). now symmetry.
    + rewrite length_app in Hu. lia.
Qed.

End Overlap.

(** * Replacements and freedom from a pattern *)

Section Replacement.

Lemma lang_app p1 p2 w1 w2 :
  lang p1 w1 -> lang p2 w2 -> lang (p1 ++ p2) (w1 ++ w2).
Proof.
  intros (s1 & H1 & <-) (s2 & H2 & <-). exists (s1 ++ s2). split.
  - now apply Forall2_app.
  - apply concat_app.
Qed.

Lemma group_lang k p segs :
  Forall2 seg_ok p segs ->
  forall inside, lang (group_items k p inside) (group_text k p segs inside).
Proof.
  induction 1 as [|it g p segs Hg HF IH]; intros inside.
  - exists []. split; [constructor | reflexivity].
  - destruct it as [a|a|j|j]; simpl.
    + destruct inside; [|apply IH].
      destruct (IH true) as (sg & Hsg & Hc).
      exists (g :: sg). split; [now constructor | simpl; now rewrite Hc].
    + destruct inside; [|apply IH].
      destruct (IH true) as (sg & Hsg & Hc).
      exists (g :: sg). split; [now constructor | simpl; now rewrite Hc].
    + apply IH.
    + destruct (Nat.eqb j k); [|apply IH].
      exists []. split; [constructor | reflexivity].
Qed.

Lemma expand_lang p segs tm :
  Forall2 seg_ok p segs -> lang (repl_items p tm) (expand tm p segs).
Proof.
  intros HF. induction tm as [|t tm IH].
  - exists []. split; [constructor | reflexivity].
  - unfold repl_items, expand. simpl. apply lang_app; [|exact IH].
    destruct t as [c|k].
    + exists [[c]]. split; [|reflexivity].
      constructor; [|constructor]. exists c. split; [reflexivity|].
      simpl. apply N.eqb_refl.
    + now apply group_lang.
Qed.

End Replacement.

Section Freedom.

Lemma app_le_split {A} (x y x' y' : list A) :
  x ++ y = x' ++ y' -> length x <= length x' ->
  exists l, x' = x ++ l /\ y = l ++ y'.
Proof.
  intros H Hl. apply app_eq_app in H as [l [[-> ->]|[-> ->]]].
  - rewrite length_app in Hl. destruct l; [|simpl in Hl; lia].
    exists []. now rewrite !app_nil_r.
  - now exists l.
Qed.

Lemma occurs_suffix q a s : occurs q s -> occurs q (a ++ s).
Proof.
  intros (a' & w & b & -> & Hw). exists (a ++ a'), w, b.
  split; [now rewrite <- app_assoc | assumption].
Qed.

Lemma lang_consuming_nonempty q w : consuming q = true -> lang q w -> w <> [].
Proof. intros Hc (segs & HF & <-). now apply consuming_nonempty with q. Qed.

Variable p : list item.
Variable tm : list titem.
Variable q : list item.

Hypothesis Hc : consuming p = true.
Hypothesis Hq : plus_on_space q = true.
Hypothesis Hr : plus_on_space (repl_items p tm) = true.
Hypothesis Hno : no_overlap (shape q) (shape (repl_items p tm)) = true.

(** No word of [q] can share a position with a replacement. *)
Lemma no_shared_position segs w :
  Forall2 seg_ok p segs -> lang q w -> ~ overlap w (expand tm p segs).
Proof.
  intros HF Hw Ho. apply squash_overlap in Ho.
  rewrite (lang_squash q w Hq Hw) in Ho.
  rewrite (lang_squash _ _ Hr (expand_lang p segs tm HF)) in Ho.
  now apply (no_overlap_sound _ _ Hno).
Qed.

Lemma scan_free_aux n : forall s,
  length s = n ->
  q = p \/ ~ occurs q s ->
  ~ occurs q (sub_scan p tm s 0).1.
Proof.
  induction n as [n IH] using lt_wf_ind. intros s Hn Hs.
  destruct (sub_scan_first p tm Hc s)
    as [[Hh Ho]|(u & segs & rest & Hdec & Hm & Hu & Ho)]; rewrite Ho; simpl.
  - destruct Hs as [->|Hs]; [|assumption].
    intros Hocc. apply has_match_occurs in Hocc. congruence.
  - pose proof (match_sound _ _ _ Hm) as [HF _].
    pose proof (consuming_nonempty p segs Hc HF) as Hne.
    intros (a & w & b & Heq & Hw).
    destruct (le_lt_dec (length a + length w) (length u)) as [H1|H1].
    { (* the word lies in the text before the match *)
      symmetry in Heq. rewrite app_assoc in Heq.
      apply app_le_split in Heq as (l & Hul & _);
        [|rewrite length_app; lia].
      rewrite <- app_assoc in Hul.
      destruct Hs as [->|Hs].
      - assert (w ++ l <> []) as Hwl.
        { pose proof (lang_consuming_nonempty p w Hc Hw).
          destruct w; [congruence | discriminate]. }
        pose proof (Hu a (w ++ l) Hul Hwl) as Hnone.
        destruct (lang_match p w (l ++ concat segs ++ rest) Hw) as [x Hx].
        rewrite <- app_assoc in Hnone. congruence.
      - apply Hs. exists a, w, (l ++ concat segs ++ rest).
        split; [|assumption]. rewrite Hdec, Hul. now rewrite <- !app_assoc. }
    destruct (le_lt_dec (length u + length (expand tm p segs)) (length a))
      as [H2|H2].
    { (* the word lies in the text after the replacement *)
      rewrite app_assoc in Heq.
      apply app_le_split in Heq as (l & Hal & Hrest);
        [|rewrite length_app; lia].
      apply (IH (length rest)) with (s := rest).
      - subst n s. rewrite !length_app.
        destruct (concat segs); [congruence | simpl; lia].
      - reflexivity.
      - destruct Hs as [->|Hs]; [now left | right].
        intros Hocc. apply Hs. rewrite Hdec.
        apply occurs_suffix. now apply occurs_suffix.
      - exists l, w, b. auto. }
    apply (no_shared_position segs w HF Hw).
    symmetry in Heq. apply (intersect_overlap _ _ _ _ _ _ Heq); lia.
Qed.

Lemma scan_free s :
  q = p \/ ~ occurs q s -> ~ occurs q (sub_scan p tm s 0).1.
Proof. now apply (scan_free_aux (length s)). Qed.

End Freedom.

(** * Sequences of rules *)

Section Pipeline.

Lemma check_from_free : forall rest prev s,
  check_from prev rest = true ->
  (forall q, In q prev -> ~ occurs q s) ->
  forall q, In q prev \/ In q (map fst rest) ->
            ~ occurs q (run_compiled rest s).
Proof.
  induction rest as [|c rest IH]; intros prev s Hck Hprev q Hin.
  - simpl in *. destruct Hin as [Hin|[]]. now apply Hprev.
  - cbn [check_from] in Hck.
    apply andb_true_iff in Hck as [Hck Hrest].
    apply andb_true_iff in Hck as [Hok Hall].
    unfold rule_ok in Hok.
    apply andb_true_iff in Hok as [Hok Hrp].
    apply andb_true_iff in Hok as [Hcons Hpp].
    rewrite forallb_forall in Hall.
    change (run_compiled (c :: rest) s) with (run_compiled rest (step c s)).
    apply (IH (c.1 :: prev)); [assumption| |].
    + intros q' Hq'. specialize (Hall q' Hq').
      apply andb_true_iff in Hall as [Hq1 Hq2].
      unfold step. apply scan_free; try assumption.
      destruct Hq' as [<-|Hq']; [now left | right; now apply Hprev].
    + simpl in Hin. destruct Hin as [Hin|[<-|Hin]].
      * left. now right.
      * left. now left.
      * now right.
Qed.

Lemma run_compiled_fixed cs : forall s,
  (forall c, In c cs -> ~ occurs c.1 s) -> run_compiled cs s = s.
Proof.
  induction cs as [|c cs IH]; intros s H; [reflexivity|].
  change (run_compiled (c :: cs) s) with (run_compiled cs (step c s)).
  assert (step c s = s) as ->.
  { unfold step. rewrite sub_scan_free; [reflexivity|]. apply H. now left. }
  apply IH. intros c' Hc'. apply H. now right.
Qed.

Lemma run_compiled_free cs s c :
  check_from [] cs = true -> In c cs -> ~ occurs c.1 (run_compiled cs s).
Proof.
  intros Hck Hin. apply (check_from_free cs [] s Hck).
  - intros q [].
  - right. now apply in_map.
Qed.

Lemma run_compiled_idem cs s :
  check_from [] cs = true ->
  run_compiled cs (run_compiled cs s) = run_compiled cs s.
Proof.
  intros Hck. apply run_compiled_fixed.
  intros c Hc. now apply run_compiled_free.
Qed.

End Pipeline.

(** * [str.replace] as a scan for a literal pattern *)

Section Literal.

Lemma match_lit old : forall s,
  match_items (lit old) s
  = if starts_with old s then Some (map (fun c => [c]) old) else None.
Proof.
  induction old as [|a old IH]; intros s; simpl; [reflexivity|].
  destruct s as [|b s]; [reflexivity|].
  rewrite IH. destruct (N.eqb_spec a b) as [->|]; simpl; [|reflexivity].
  destruct (starts_with old s); reflexivity.
Qed.

Lemma concat_singletons (s : text) : concat (map (fun c => [c]) s) = s.
Proof. induction s as [|c s IH]; simpl; [|rewrite IH]; reflexivity. Qed.

Lemma expand_lit new p segs : expand (map TLit new) p segs = new.
Proof.
  unfold expand. induction new as [|c new IH]; simpl; [|rewrite IH]; reflexivity.
Qed.

Lemma replace_scan_sub old new : old <> [] -> forall s skip,
  replace_scan old new s skip = sub_scan (lit old) (map TLit new) s skip.
Proof.
  intros Hne. induction s as [|c s IH]; intros skip.
  - simpl. destruct skip; [|reflexivity].
    rewrite match_lit. destruct old; [congruence | reflexivity].
  - simpl. destruct skip as [|k]; [|apply IH].
    rewrite match_lit.
    change (match old with [] => true | a :: p' => (a =? c)%N && starts_with p' s end)
      with (starts_with old (c :: s)).
    destruct (starts_with old (c :: s)).
    + rewrite concat_singletons, expand_lit, IH.
      destruct old; [congruence | reflexivity].
    + now rewrite IH.
Qed.

Lemma sub_scan_empty tm s :
  sub_scan [] tm s 0
  = (expand tm [] [] ++ flat_map (fun c => c :: expand tm [] []) s, S (length s)).
Proof.
  induction s as [|c s IH]; simpl.
  - now rewrite app_nil_r.
  - rewrite IH. simpl. reflexivity.
Qed.

Lemma str_replace_sub old new s :
  str_replace_count old new s = sub_scan (lit old) (map TLit new) s 0.
Proof.
  destruct old as [|a old].
  - simpl. rewrite sub_scan_empty, expand_lit. reflexivity.
  - apply replace_scan_sub. discriminate.
Qed.

Lemma lang_lit old w : lang (lit old) w <-> w = old.
Proof.
  split.
  - intros (segs & HF & <-). revert segs HF.
    induction old as [|a old IH]; intros segs HF; inversion HF; subst; [reflexivity|].
    simpl. match goal with H : seg_ok _ _ |- _ => destruct H as (c & -> & Hc) end.
    simpl in Hc. apply N.eqb_eq in Hc. subst c. simpl. f_equal. now apply IH.
  - intros ->. exists (map (fun c => [c]) old). split; [|apply concat_singletons].
    induction old as [|a old IH]; simpl; constructor; [|assumption].
    exists a. split; [reflexivity | apply N.eqb_refl].
Qed.

Lemma occurs_lit old s : occurs (lit old) s <-> contains old s.
Proof.
  split.
  - intros (a & w & b & -> & Hw). apply lang_lit in Hw as ->. now exists a, b.
  - intros (a & b & ->). exists a, old, b. split; [reflexivity | now apply lang_lit].
Qed.

End Literal.

(** * The routines as rule sequences *)

Section Routines.

Lemma apply_rule_compiled r c s :
  compile_rule r = Ok c -> apply_rule r s = Ok (sub_scan c.1 c.2 s 0).
Proof.
  destruct r as [pattern repl flags|old new]; simpl.
  - unfold re_subn. destruct (re_compile pattern) as [pn| |]; simpl; try discriminate.
    destruct (parse_template pn.2 repl) as [t| |]; simpl; try discriminate.
    now intros [= <-].
  - intros [= <-]. simpl. now rewrite str_replace_sub.
Qed.

Lemma run_rules_compiled rs : forall cs s,
  compile_rules rs = Ok cs -> (run_rules rs s).2 = Ok (run_compiled cs s).
Proof.
  induction rs as [|r rs IH]; intros cs s H; simpl in H.
  - injection H as <-. reflexivity.
  - destruct (compile_rule r) as [c| |] eqn:Ec; simpl in H; try discriminate.
    destruct (compile_rules rs) as [cs'| |] eqn:Ecs; simpl in H; try discriminate.
    injection H as <-.
    change (run_compiled (c :: cs') s) with (run_compiled cs' (step c s)).
    unfold step. cbn [run_rules].
    rewrite (apply_rule_compiled r c s Ec).
    destruct (sub_scan c.1 c.2 s 0) as [s' n]. simpl.
    now apply IH.
Qed.

Lemma mbox_compiles : compile_rules mbox_rules = Ok mbox_compiled.
Proof. vm_compute. reflexivity. Qed.

Lemma msg_compiles : compile_rules msg_rules = Ok msg_compiled.
Proof. vm_compute. reflexivity. Qed.

Lemma vcf_compiles : compile_rules vcf_rules = Ok vcf_compiled.
Proof. vm_compute. reflexivity. Qed.

Lemma mbox_checked : check_from [] mbox_compiled = true.
Proof. vm_compute. reflexivity. Qed.

Lemma msg_checked : check_from [] msg_compiled = true.
Proof. vm_compute. reflexivity. Qed.

Lemma vcf_checked : check_from [] vcf_compiled = true.
Proof. vm_compute. reflexivity. Qed.

Ltac step_sub :=
  match goal with
  | |- context [re_subn ?a ?b ?c ?d] =>
      destruct (re_subn a b c d) as [[? ?]| |];
      cbn [bind_outcome run_rules apply_rule fst snd]; try reflexivity
  end.

Ltac unfold_routine :=
  unfold re_sub, str_replace, mbind, outcome_bind, mret, outcome_ret;
  cbn [run_rules apply_rule].

Lemma fix_mbox_text_rules t : fix_mbox_text t = (run_rules mbox_rules t).2.
Proof.
  unfold fix_mbox_text, mbox_rules. unfold_routine.
  do 4 step_sub.
  match goal with
  | |- context [str_replace_count mbox_old5 mbox_new5 ?c] =>
      destruct (str_replace_count mbox_old5 mbox_new5 c)
  end.
  cbn [bind_outcome run_rules apply_rule fst snd].
  match goal with
  | |- context [str_replace_count mbox_old6 mbox_new6 ?c] =>
      destruct (str_replace_count mbox_old6 mbox_new6 c)
  end.
  reflexivity.
Qed.

Lemma fix_msg_text_rules t : fix_msg_text t = (run_rules msg_rules t).2.
Proof.
  unfold fix_msg_text, msg_rules. unfold_routine.
  destruct (str_replace_count msg_old1 msg_new1 t).
  cbn [bind_outcome run_rules apply_rule fst snd].
  do 4 step_sub.
Qed.

Lemma fix_vcf_text_rules t : fix_vcf_text t = (run_rules vcf_rules t).2.
Proof.
  unfold fix_vcf_text, vcf_rules. unfold_routine.
  do 5 step_sub.
Qed.

Lemma fix_mbox_text_run t : fix_mbox_text t = Ok (run_compiled mbox_compiled t).
Proof. rewrite fix_mbox_text_rules. apply run_rules_compiled, mbox_compiles. Qed.

Lemma fix_msg_text_run t : fix_msg_text t = Ok (run_compiled msg_compiled t).
Proof. rewrite fix_msg_text_rules. apply run_rules_compiled, msg_compiles. Qed.

Lemma fix_vcf_text_run t : fix_vcf_text t = Ok (run_compiled vcf_compiled t).
Proof. rewrite fix_vcf_text_rules. apply run_rules_compiled, vcf_compiles. Qed.

End Routines.

(** * The claims about the text transformations *)

Section Claims_text.

Lemma rule_occurs_b_spec r s : rule_occurs r s -> rule_occurs_b r s = true.
Proof.
  destruct r as [pattern repl flags|old new]; simpl.
  - intros (p & n & Hc & Ho). rewrite Hc. simpl. now apply has_match_occurs.
  - intros H. apply has_match_occurs. now apply occurs_lit.
Qed.

Lemma untouched_by_spec rs s :
  untouched_by rs s = true -> forall r, In r rs -> ~ rule_occurs r s.
Proof.
  unfold untouched_by. rewrite forallb_forall. intros H r Hr Ho.
  specialize (H r Hr). now rewrite (rule_occurs_b_spec r s Ho) in H.
Qed.

Lemma compile_rule_occurs r c s :
  compile_rule r = Ok c -> occurs c.1 s -> rule_occurs r s.
Proof.
  destruct r as [pattern repl flags|old new]; simpl.
  - destruct (re_compile pattern) as [[p n]| |] eqn:E; simpl; try discriminate.
    destruct (parse_template n repl) as [t| |]; simpl; try discriminate.
    intros [= <-] Ho. now exists p, n.
  - intros [= <-]. simpl. apply occurs_lit.
Qed.

Lemma run_rules_untouched rs : forall cs t,
  compile_rules rs = Ok cs ->
  (forall r, In r rs -> ~ rule_occurs r t) ->
  run_rules rs t = (map (fun _ => 0) rs, Ok t).
Proof.
  induction rs as [|r rs IH]; intros cs t Hc H; [reflexivity|].
  simpl in Hc.
  destruct (compile_rule r) as [c| |] eqn:Ec; simpl in Hc; try discriminate.
  destruct (compile_rules rs) as [cs'| |] eqn:Ecs; simpl in Hc; try discriminate.
  cbn [run_rules map]. rewrite (apply_rule_compiled r c t Ec).
  rewrite sub_scan_free.
  - rewrite (IH cs' t eq_refl); [reflexivity|].
    intros r' Hr'. apply H. now right.
  - intros Ho. apply (H r); [now left|]. now apply compile_rule_occurs with c.
Qed.

End Claims_text.

(** C1: Idempotence of the full pipeline: for every input text, the
    transformation performed by [fix_mbox] (four [re.sub] rules followed
    by two [str.replace] edits) returns a text that the same
    transformation leaves unchanged, so applying it twice gives the
    result of applying it once; the same holds for [fix_msg] and
    [fix_vcf]. *)
Theorem fix_text_idempotent (t : text) :
  (exists t1, fix_mbox_text t = Ok t1 /\ fix_mbox_text t1 = Ok t1)
  /\ (exists t1, fix_msg_text t = Ok t1 /\ fix_msg_text t1 = Ok t1)
  /\ (exists t1, fix_vcf_text t = Ok t1 /\ fix_vcf_text t1 = Ok t1).
Proof.
  split; [|split].
  - exists (run_compiled mbox_compiled t). rewrite !fix_mbox_text_run.
    split; [reflexivity|]. f_equal. apply run_compiled_idem, mbox_checked.
  - exists (run_compiled msg_compiled t). rewrite !fix_msg_text_run.
    split; [reflexivity|]. f_equal. apply run_compiled_idem, msg_checked.
  - exists (run_compiled vcf_compiled t). rewrite !fix_vcf_text_run.
    split; [reflexivity|]. f_equal. apply run_compiled_idem, vcf_checked.
Qed.

(** C4: No-op safety: a [re.sub] whose pattern has no occurrence in
    the text returns the text unchanged with a match count of 0, and so
    does a [str.replace] whose search string does not occur; a text in
    which no rule of a routine has an occurrence comes back from the
    whole transformation of that routine identical. *)
Theorem no_op_safety :
  (forall pattern repl flags s p n tm,
      re_compile pattern = Ok (p, n) -> parse_template n repl = Ok tm ->
      ~ occurs p s ->
      re_subn pattern repl s flags = Ok (s, 0))
  /\ (forall old new s,
         ~ contains old s -> str_replace_count old new s = (s, 0))
  /\ (forall t, (forall r, In r mbox_rules -> ~ rule_occurs r t) ->
                fix_mbox_text t = Ok t)
  /\ (forall t, (forall r, In r msg_rules -> ~ rule_occurs r t) ->
                fix_msg_text t = Ok t)
  /\ (forall t, (forall r, In r vcf_rules -> ~ rule_occurs r t) ->
                fix_vcf_text t = Ok t).
Proof.
  repeat split.
  - intros pattern repl flags s p n tm Hc Ht Hf. unfold re_subn.
    rewrite Hc. simpl. rewrite Ht. simpl. now rewrite sub_scan_free.
  - intros old new s Hf. rewrite str_replace_sub. apply sub_scan_free.
    intros Ho. apply Hf. now apply occurs_lit.
  - intros t H. rewrite fix_mbox_text_rules.
    now rewrite (run_rules_untouched _ _ t mbox_compiles H).
  - intros t H. rewrite fix_msg_text_rules.
    now rewrite (run_rules_untouched _ _ t msg_compiles H).
  - intros t H. rewrite fix_vcf_text_rules.
    now rewrite (run_rules_untouched _ _ t vcf_compiles H).
Qed.

Lemma no_op_safety_witness :
  re_subn mbox_pattern3 mbox_repl3 plain_text [] = Ok (plain_text, 0)
  /\ str_replace_count mbox_old6 mbox_new6 plain_text = (plain_text, 0)
  /\ fix_mbox_text plain_text = Ok plain_text
  /\ fix_msg_text plain_text = Ok plain_text
  /\ fix_vcf_text plain_text = Ok plain_text.
Proof.
  destruct no_op_safety as (H1 & H2 & H3 & H4 & H5).
  split; [|split; [|split; [|split]]].
  - apply (H1 mbox_pattern3 mbox_repl3 [] plain_text
              (compiled mbox_pattern3) 0
              (map TLit mbox_repl3)).
    + vm_compute. reflexivity.
    + vm_compute. reflexivity.
    + intros Ho. apply has_match_occurs in Ho. vm_compute in Ho. discriminate.
  - apply H2. intros Ho. apply occurs_lit, has_match_occurs in Ho.
    vm_compute in Ho. discriminate.
  - apply H3. apply untouched_by_spec. vm_compute. reflexivity.
  - apply H4. apply untouched_by_spec. vm_compute. reflexivity.
  - apply H5. apply untouched_by_spec. vm_compute. reflexivity.
Defined.

(** * Literal edits *)

Section Replace_spec.

Variable old new : text.
Hypothesis Hne : old <> [].

Lemma join_cons (sep x : text) l :
  l <> [] -> join sep (x :: l) = x ++ sep ++ join sep l.
Proof. destruct l; [congruence | reflexivity]. Qed.

Lemma match_lit_segs s segs :
  match_items (lit old) s = Some segs -> concat segs = old.
Proof. intros H. apply lang_lit. now apply match_lang with s. Qed.

Lemma lit_consuming : consuming (lit old) = true.
Proof. destruct old; [congruence | reflexivity]. Qed.

Lemma unbordered_spec d e :
  unbordered old = true -> old = d ++ e -> d <> [] -> e <> [] ->
  ~ e `prefix_of` old.
Proof.
  unfold unbordered. rewrite forallb_forall. intros H -> Hd He Hp.
  destruct d as [|c d]; [congruence|]. simpl in H.
  specialize (H e (tails_ne_suffix e (d ++ e) He (ltac:(now exists d)))).
  apply starts_with_prefix in Hp. simpl in Hp. now rewrite Hp in H.
Qed.

(** The text splits at the occurrences replaced; the pieces between
    them are kept and hold no further occurrence. *)
Lemma replace_pieces_aux n : forall s,
  length s = n ->
  exists l,
    l <> []
    /\ s = join old l
    /\ str_replace_count old new s = (join new l, length l - 1)
    /\ Forall (fun piece => ~ contains old piece) l
    /\ (unbordered old = true ->
        forall a b, s = a ++ old ++ b ->
          exists l1 l2, l = l1 ++ l2 /\ l1 <> [] /\ l2 <> []
                        /\ a = join old l1 /\ b = join old l2).
Proof.
  induction n as [n IH] using lt_wf_ind. intros s Hn.
  rewrite str_replace_sub.
  destruct (sub_scan_first (lit old) (map TLit new) lit_consuming s)
    as [[Hh Ho]|(u & segs & rest & Hdec & Hm & Hu & Ho)].
  - assert (~ contains old s) as Hfree.
    { intros Hc. apply occurs_lit, has_match_occurs in Hc. congruence. }
    exists [s]. split; [discriminate|]. split; [reflexivity|].
    split; [exact Ho|]. split; [now constructor|].
    intros _ a b Hs. exfalso. apply Hfree. now exists a, b.
  - pose proof (match_lit_segs _ _ Hm) as Hseg. rewrite Hseg in *.
    rewrite expand_lit in Ho.
    assert (~ contains old u) as Hfree.
    { intros (a & b & Hab).
      assert (old ++ b <> []) as Hob by (destruct old; [congruence | discriminate]).
      pose proof (Hu a (old ++ b) Hab Hob) as Hnone.
      rewrite <- app_assoc in Hnone.
      destruct (lang_match (lit old) old (b ++ old ++ rest)) as [x Hx];
        [now apply lang_lit | congruence]. }
    destruct (IH (length rest)) with (s := rest)
      as (l & Hl & Hj & Hr & Hall & Hocc); [|reflexivity|].
    { subst n s. rewrite !length_app. destruct old; [congruence | simpl; lia]. }
    rewrite str_replace_sub in Hr.
    exists (u :: l). split; [discriminate|].
    split; [rewrite join_cons by assumption; now rewrite <- Hj|].
    split.
    { rewrite Ho, Hr. simpl fst. simpl snd.
      rewrite join_cons by assumption. f_equal.
      destruct l; [congruence | simpl; lia]. }
    split; [now constructor|].
    intros Hub a b Hs.
    rewrite Hdec in Hs.
    destruct (le_lt_dec (length a + length old) (length u)) as [H1|H1].
    { exfalso. apply Hfree.
      rewrite (app_assoc a) in Hs. symmetry in Hs.
      apply app_le_split in Hs as (k & Hk & _); [|rewrite length_app; lia].
      exists a, k. now rewrite Hk, <- app_assoc. }
    destruct (le_lt_dec (length u + length old) (length a)) as [H2|H2].
    { rewrite (app_assoc u) in Hs.
      apply app_le_split in Hs as (k & Hk & Hrest); [|rewrite length_app; lia].
      destruct (Hocc Hub k b Hrest) as (l1 & l2 & -> & Hl1 & Hl2 & Hk1 & Hb).
      exists (u :: l1), l2. split; [reflexivity|]. split; [discriminate|].
      split; [assumption|]. split; [|assumption].
      rewrite join_cons by assumption. rewrite Hk, <- app_assoc. now rewrite Hk1. }
    destruct (lt_eq_lt_dec (length a) (length u)) as [[H3|H3]|H3].
    + (* an occurrence would start in the text before the first match *)
      exfalso. symmetry in Hs.
      apply app_le_split in Hs as (k & Hk & Hrest); [|lia].
      assert (k <> []) as Hk0.
      { intros ->. rewrite app_nil_r in Hk. subst u. lia. }
      pose proof (Hu a k Hk Hk0) as Hnone. rewrite <- Hrest in Hnone.
      destruct (lang_match (lit old) old b) as [x Hx];
        [now apply lang_lit | congruence].
    + (* the occurrence is the first match *)
      apply app_le_split in Hs as (k & Hk & Hrest); [|lia].
      assert (k = []) as ->.
      { apply (f_equal length) in Hk. rewrite length_app in Hk.
        destruct k; [reflexivity | simpl in Hk; lia]. }
      rewrite app_nil_r in Hk. subst a. simpl in Hrest.
      apply app_inv_head in Hrest.
      exists [u], l. split; [reflexivity|]. split; [discriminate|].
      split; [assumption|]. split; [reflexivity|]. now rewrite <- Hrest.
    + (* the occurrence would overlap the first match *)
      exfalso.
      apply app_le_split in Hs as (d & Hd & Hrest); [|lia].
      assert (length d < length old) as Hdl.
      { apply (f_equal length) in Hd. rewrite length_app in Hd. lia. }
      assert (d <> []) as Hd0.
      { intros ->. rewrite app_nil_r in Hd. subst a. lia. }
      symmetry in Hrest.
      apply app_le_split in Hrest as (e & He & Hrest'); [|lia].
      assert (e <> []) as He0.
      { intros ->. rewrite app_nil_r in He. subst d. lia. }
      apply (unbordered_spec d e Hub He Hd0 He0).
      assert (length e <= length old) as Hel.
      { apply (f_equal length) in He. rewrite length_app in He. lia. }
      symmetry in Hrest'.
      apply app_le_split in Hrest' as (f & Hf & _); [|assumption].
      now exists f.
Qed.

Lemma replace_pieces s :
  exists l,
    l <> []
    /\ s = join old l
    /\ str_replace_count old new s = (join new l, length l - 1)
    /\ Forall (fun piece => ~ contains old piece) l
    /\ (unbordered old = true ->
        forall a b, s = a ++ old ++ b ->
          exists l1 l2, l = l1 ++ l2 /\ l1 <> [] /\ l2 <> []
                        /\ a = join old l1 /\ b = join old l2).
Proof. now apply (replace_pieces_aux (length s)). Qed.

End Replace_spec.

(** C3: The literal edit for [addr.address.clone().unwrap_or_default()]:
    every text splits into pieces separated by the occurrences of that
    exact string; the result is the same pieces, in order and unchanged,
    separated by
    [addr.address.as_ref().map(|a| a.to_string()).unwrap_or_default()];
    no piece holds an occurrence, and every occurrence in the text is one
    of the separators, so all of them are replaced. *)
Theorem replace_address_clone (s : text) :
  exists l,
    l <> []
    /\ s = join mbox_old6 l
    /\ str_replace mbox_old6 mbox_new6 s = join mbox_new6 l
    /\ Forall (fun piece => ~ contains mbox_old6 piece) l
    /\ (forall a b, s = a ++ mbox_old6 ++ b ->
          exists l1 l2, l = l1 ++ l2 /\ l1 <> [] /\ l2 <> []
                        /\ a = join mbox_old6 l1 /\ b = join mbox_old6 l2).
Proof.
  destruct (replace_pieces mbox_old6 mbox_new6 ltac:(discriminate) s)
    as (l & Hl & Hj & Hr & Hall & Hocc).
  exists l. split; [assumption|]. split; [assumption|].
  split; [unfold str_replace; now rewrite Hr|]. split; [assumption|].
  apply Hocc. vm_compute. reflexivity.
Qed.

(** C10: Output invariant of [fix_mbox]: whatever the input, the
    transformed text holds no occurrence of
    [addr.address.as_ref().unwrap_or(&String::new())] nor of
    [addr.address.clone().unwrap_or_default()]; both edits write the
    same replacement, and each legacy expression alone is turned into
    it. *)
Theorem mbox_no_legacy_address (t : text) :
  (exists out, fix_mbox_text t = Ok out
               /\ ~ contains mbox_old5 out /\ ~ contains mbox_old6 out)
  /\ mbox_new5 = mbox_new6
  /\ fix_mbox_text mbox_old5 = Ok mbox_new5
  /\ fix_mbox_text mbox_old6 = Ok mbox_new5.
Proof.
  split; [|split; [|split]]; [|vm_compute; reflexivity..].
  exists (run_compiled mbox_compiled t). split; [apply fix_mbox_text_run|].
  split; intros Hc; apply occurs_lit in Hc.
  - apply (run_compiled_free mbox_compiled t
             (lit mbox_old5, map TLit mbox_new5) mbox_checked); [|exact Hc].
    apply nth_error_In with 4. vm_compute. reflexivity.
  - apply (run_compiled_free mbox_compiled t
             (lit mbox_old6, map TLit mbox_new6) mbox_checked); [|exact Hc].
    apply nth_error_In with 5. vm_compute. reflexivity.
Qed.

(** * Constructs laid out with arbitrary whitespace *)

Section Layout.

Lemma next_char_fill p c : forall runs,
  next_char p = Some c -> exists t, concat (fill p runs) = c :: t.
Proof.
  induction p as [|it p IH]; intros runs H; [discriminate|].
  destruct it as [[d|]|a|k|k]; simpl in H; try discriminate.
  - injection H as ->. simpl. eauto.
  - simpl. now apply IH.
  - simpl. now apply IH.
Qed.

(** The matcher consumes exactly the construct, item by item. *)
Lemma match_fill p : forall runs rest,
  anchored p = true -> runs_ok p runs = true ->
  match_items p (layout p runs ++ rest) = Some (fill p runs).
Proof.
  unfold layout.
  induction p as [|it p IH]; intros runs rest Ha Hr; [reflexivity|].
  cbn [anchored] in Ha. apply andb_true_iff in Ha as [Hit Ha].
  destruct it as [[d|]|a|k|k]; try discriminate.
  - simpl in Hr |- *. rewrite N.eqb_refl. now rewrite IH.
  - simpl in Hr. destruct runs as [|g runs]; [discriminate|].
    apply andb_true_iff in Hr as [Hg Hr].
    apply andb_true_iff in Hg as [Hg0 Hg].
    destruct (next_char p) as [c|] eqn:Ec; [|discriminate].
    apply negb_true_iff in Hit.
    destruct (next_char_fill p c runs Ec) as [t Ht].
    cbn [fill concat match_items]. rewrite <- app_assoc.
    rewrite Ht. cbn [app].
    rewrite (run_length_exact a g c (t ++ rest) Hg Hit).
    destruct g as [|x g]; [discriminate|].
    change (length (x :: g)) with (S (length g)).
    apply greedy_first. cbv beta.
    change (S (length g)) with (length (x :: g)).
    rewrite take_app_length, drop_app_length.
    change (c :: t ++ rest) with ((c :: t) ++ rest). rewrite <- Ht.
    now rewrite IH.
  - simpl in Hr |- *. now rewrite IH.
  - simpl in Hr |- *. now rewrite IH.
Qed.

Lemma fill_seg_ok p runs :
  anchored p = true -> runs_ok p runs = true -> Forall2 seg_ok p (fill p runs).
Proof.
  intros Ha Hr. pose proof (match_fill p runs [] Ha Hr) as H.
  apply (match_sound _ _ _ H).
Qed.

Lemma group_items_space k p : forall inside,
  plus_on_space p = true -> plus_on_space (group_items k p inside) = true.
Proof.
  induction p as [|it p IH]; intros inside H; [reflexivity|].
  simpl in H. apply andb_true_iff in H as [Hit H].
  destruct it as [a|a|j|j]; cbn [group_items].
  - destruct inside; [|now apply IH].
    cbn [plus_on_space forallb]. now apply IH.
  - destruct inside; [|now apply IH].
    cbn [plus_on_space forallb]. rewrite Hit. now apply IH.
  - now apply IH.
  - destruct (Nat.eqb j k); [reflexivity | now apply IH].
Qed.

(** A capture is the shape of its group up to whitespace. *)
Lemma capture_shape k p runs :
  anchored p = true -> plus_on_space p = true -> runs_ok p runs = true ->
  squash (group_text k p (fill p runs) false) = shape (group_items k p false).
Proof.
  intros Ha Hp Hr. apply lang_squash.
  - now apply group_items_space.
  - apply group_lang. now apply fill_seg_ok.
Qed.

Lemma re_sub_layout pattern repl flags p n tm runs :
  re_compile pattern = Ok (p, n) -> parse_template n repl = Ok tm ->
  consuming p = true -> anchored p = true -> runs_ok p runs = true ->
  re_sub pattern repl (layout p runs) flags = Ok (expand tm p (fill p runs)).
Proof.
  intros Hc Ht Hcons Ha Hr. unfold re_sub, re_subn. rewrite Hc. simpl.
  rewrite Ht. simpl. f_equal.
  pose proof (match_fill p runs [] Ha Hr) as Hm. rewrite app_nil_r in Hm.
  rewrite (sub_scan_match p tm _ _ [] Hcons Hm) by (now rewrite app_nil_r).
  simpl. rewrite consuming_no_empty_match by assumption. simpl.
  apply app_nil_r.
Qed.

Lemma runs_ok_blank p : forall runs,
  only_space_plus p = true -> length runs = plus_count p ->
  forallb blank runs = true -> runs_ok p runs = true.
Proof.
  induction p as [|it p IH]; intros runs Hp Hl Hb.
  - destruct runs; [reflexivity | discriminate].
  - cbn [only_space_plus forallb] in Hp. apply andb_true_iff in Hp as [Hit Hp].
    destruct it as [a|[c|]|k|k]; try discriminate; cbn [runs_ok plus_count] in *;
      try (now apply IH).
    destruct runs as [|g runs]; [discriminate|].
    cbn [forallb] in Hb. apply andb_true_iff in Hb as [Hg Hb].
    unfold blank in Hg.
    change (forallb (atom_ok ASpace) g) with (forallb is_space g).
    rewrite Hg. cbn [andb]. apply IH; [assumption| |assumption].
    simpl in Hl. lia.
Qed.

End Layout.

(** * Claims about single rules *)

Section Rule_facts.

Lemma structural_patterns_facts :
  forallb pattern_facts structural_patterns = true.
Proof. vm_compute. reflexivity. Qed.

Lemma pattern_facts_spec pattern :
  pattern_facts pattern = true ->
  exists n, re_compile pattern = Ok (compiled pattern, n)
            /\ anchored (compiled pattern) = true
            /\ only_space_plus (compiled pattern) = true
            /\ plus_on_space (compiled pattern) = true
            /\ consuming (compiled pattern) = true.
Proof.
  unfold pattern_facts, compiled.
  destruct (re_compile pattern) as [[p n]| |]; try discriminate.
  simpl. rewrite !andb_true_iff. intros [[[H1 H2] H3] H4]. now exists n.
Qed.

Lemma literal_lang q segs :
  literal_only q = true -> Forall2 seg_ok q segs -> concat segs = canon q.
Proof.
  intros Hq HF. induction HF as [|it g q segs Hg HF IH]; [reflexivity|].
  cbn [literal_only forallb] in Hq. apply andb_true_iff in Hq as [Hit Hq].
  specialize (IH Hq).
  destruct it as [[c|]|a|k|k]; try discriminate; simpl in Hg.
  - destruct Hg as (d & -> & Hd). apply N.eqb_eq in Hd. subst d.
    simpl. now rewrite IH.
  - subst g. exact IH.
  - subst g. exact IH.
Qed.

End Rule_facts.

(** C2: On the text
    [TextRun { text: "x".to_string(), style: Default::default() }] the
    rules of the script for two-field [TextRun] constructions make no
    change: each of them needs the enclosing [text_runs.push(...);], its
    own [text:] expression and a comma after the last field.  On the
    call it targets, with any non-empty whitespace between the tokens,
    the body-text rule writes the call with [bounds: None] and
    [char_positions: None] inserted before the closing brace, and the
    result of the newline rule ends with the same two fields and
    closing. *)
Theorem textrun_fields_inserted (w1 w2 w3 : text) :
  blank w1 = true -> blank w2 = true -> blank w3 = true ->
  re_sub mbox_pattern3 mbox_repl3 (body_run w1 w2 w3) [] = Ok body_run_fixed
  /\ exists pre,
       re_sub mbox_pattern2 mbox_repl2 (newline_run w1 w2 w3) []
       = Ok (pre ++ nl ++ inserted_fields).
Proof.
  intros H1 H2 H3.
  assert (forallb blank [w1; w2; w3] = true) as Hb.
  { cbn [forallb]. now rewrite H1, H2, H3. }
  split.
  - destruct (pattern_facts_spec mbox_pattern3) as (n & Hc & Ha & Ho & Hp & Hk);
      [vm_compute; reflexivity|].
    assert (body_run w1 w2 w3 = layout (compiled mbox_pattern3) [w1; w2; w3]) as ->
      by (vm_compute; reflexivity).
    assert (runs_ok (compiled mbox_pattern3) [w1; w2; w3] = true) as Hr
      by (apply runs_ok_blank; [assumption | vm_compute; reflexivity | assumption]).
    assert (parse_template n mbox_repl3 = Ok (map TLit mbox_repl3)) as Ht
      by (revert Hc; vm_compute; intros [= <-]; reflexivity).
    rewrite (re_sub_layout _ _ [] _ n _ _ Hc Ht Hk Ha Hr).
    rewrite expand_lit. vm_compute. reflexivity.
  - destruct (pattern_facts_spec mbox_pattern2) as (n & Hc & Ha & Ho & Hp & Hk);
      [vm_compute; reflexivity|].
    assert (newline_run w1 w2 w3 = layout (compiled mbox_pattern2) [w1; w2; w3]) as ->
      by (vm_compute; reflexivity).
    exists (lines [ py "text_runs.push(TextRun {";
                    py "            text: " ++ dq ++ nl ++ dq ++ py ".to_string(),";
                    py "            style: Default::default()," ]).
    assert (runs_ok (compiled mbox_pattern2) [w1; w2; w3] = true) as Hr
      by (apply runs_ok_blank; [assumption | vm_compute; reflexivity | assumption]).
    assert (parse_template n mbox_repl2
            = Ok (map TLit (lines [ py "text_runs.push(TextRun {";
                    py "            text: " ++ dq ++ nl ++ dq ++ py ".to_string(),";
                    py "            style: Default::default()," ]
                          ++ nl ++ inserted_fields))) as Ht
      by (revert Hc; vm_compute; intros [= <-]; reflexivity).
    rewrite (re_sub_layout _ _ [] _ n _ _ Hc Ht Hk Ha Hr).
    now rewrite expand_lit.
Qed.

Lemma textrun_fields_inserted_witness :
  re_sub mbox_pattern3 mbox_repl3
    (body_run (py " ") (nl ++ py "    ") (py " ")) [] = Ok body_run_fixed
  /\ exists pre,
       re_sub mbox_pattern2 mbox_repl2
         (newline_run (py " ") (nl ++ py "    ") (py " ")) []
       = Ok (pre ++ nl ++ inserted_fields).
Proof.
  apply (textrun_fields_inserted (py " ") (nl ++ py "    ") (py " "));
    vm_compute; reflexivity.
Defined.

(** The text of the scenario is returned as it is by both rules and by
    the three routines. *)
Lemma textrun_two_field_unchanged :
  re_sub mbox_pattern2 mbox_repl2 textrun_input [] = Ok textrun_input
  /\ re_sub mbox_pattern3 mbox_repl3 textrun_input [] = Ok textrun_input
  /\ fix_mbox_text textrun_input = Ok textrun_input
  /\ fix_msg_text textrun_input = Ok textrun_input
  /\ fix_vcf_text textrun_input = Ok textrun_input
  /\ re_sub mbox_pattern2 mbox_repl2 textrun_input [] <> Ok textrun_expected
  /\ re_sub mbox_pattern3 mbox_repl3 textrun_input [] <> Ok textrun_expected.
Proof.
  repeat split; try (vm_compute; reflexivity);
    intros H; vm_compute in H; discriminate.
Qed.

(** C5: Whitespace tolerance: every pattern of the script matches the
    construct it targets whatever non-empty runs of whitespace
    characters stand between its tokens, on one line or over several,
    and the match is exactly the construct.  A capture is the matched
    text itself: the captures of two layouts are equal once every run
    of whitespace is collapsed, and equal as they are for a group
    without whitespace. *)
Theorem whitespace_tolerance (pattern : text) (runs1 runs2 : list text)
    (rest1 rest2 : text) :
  In pattern structural_patterns ->
  length runs1 = plus_count (compiled pattern) -> forallb blank runs1 = true ->
  length runs2 = plus_count (compiled pattern) -> forallb blank runs2 = true ->
  (exists n, re_compile pattern = Ok (compiled pattern, n))
  /\ match_items (compiled pattern) (layout (compiled pattern) runs1 ++ rest1)
     = Some (fill (compiled pattern) runs1)
  /\ match_items (compiled pattern) (layout (compiled pattern) runs2 ++ rest2)
     = Some (fill (compiled pattern) runs2)
  /\ (forall k,
         squash (group_text k (compiled pattern) (fill (compiled pattern) runs1) false)
         = squash (group_text k (compiled pattern) (fill (compiled pattern) runs2) false))
  /\ (forall k,
         literal_only (group_items k (compiled pattern) false) = true ->
         group_text k (compiled pattern) (fill (compiled pattern) runs1) false
         = group_text k (compiled pattern) (fill (compiled pattern) runs2) false).
Proof.
  intros Hin Hl1 Hb1 Hl2 Hb2.
  pose proof structural_patterns_facts as Hf. rewrite forallb_forall in Hf.
  destruct (pattern_facts_spec pattern (Hf pattern Hin))
    as (n & Hc & Ha & Ho & Hp & Hk).
  pose proof (runs_ok_blank _ runs1 Ho Hl1 Hb1) as Hr1.
  pose proof (runs_ok_blank _ runs2 Ho Hl2 Hb2) as Hr2.
  split; [now exists n|].
  split; [now apply match_fill|]. split; [now apply match_fill|]. split.
  - intros k. now rewrite !capture_shape.
  - intros k Hlit.
    pose proof (group_lang k _ _ (fill_seg_ok _ runs1 Ha Hr1) false) as (s1 & HF1 & <-).
    pose proof (group_lang k _ _ (fill_seg_ok _ runs2 Ha Hr2) false) as (s2 & HF2 & <-).
    now rewrite (literal_lang _ _ Hlit HF1), (literal_lang _ _ Hlit HF2).
Qed.

Lemma whitespace_tolerance_witness :
  (exists n, re_compile mbox_pattern1 = Ok (compiled mbox_pattern1, n))
  /\ match_items (compiled mbox_pattern1) header_compact
     = Some (fill (compiled mbox_pattern1) (repeat (py " ") 7))
  /\ match_items (compiled mbox_pattern1) header_multiline
     = Some (fill (compiled mbox_pattern1)
               [ nl ++ py "        "; nl ++ py "            ";
                 nl ++ py "            "; nl ++ py "                ";
                 nl ++ py "                "; nl ++ py "            ";
                 nl ++ py "        " ]).
Proof.
  destruct (whitespace_tolerance mbox_pattern1 (repeat (py " ") 7)
              [ nl ++ py "        "; nl ++ py "            ";
                nl ++ py "            "; nl ++ py "                ";
                nl ++ py "                "; nl ++ py "            ";
                nl ++ py "        " ] [] [])
    as (H0 & H1 & H2 & _).
  - vm_compute. tauto.
  - vm_compute. reflexivity.
  - vm_compute. reflexivity.
  - vm_compute. reflexivity.
  - vm_compute. reflexivity.
  - split; [exact H0|]. split.
    + etransitivity; [|exact H1]. apply f_equal. vm_compute. reflexivity.
    + etransitivity; [|exact H2]. apply f_equal. vm_compute. reflexivity.
Defined.

(** The one-line and the multi-line header are the same construct up to
    whitespace, both are matched, and the first capture differs. *)
Lemma header_captures_differ :
  squash header_compact = squash header_multiline
  /\ exists segs1 segs2,
       match_items (compiled mbox_pattern1) header_compact = Some segs1
       /\ match_items (compiled mbox_pattern1) header_multiline = Some segs2
       /\ group_text 1 (compiled mbox_pattern1) segs1 false
          <> group_text 1 (compiled mbox_pattern1) segs2 false.
Proof.
  split; [vm_compute; reflexivity|].
  destruct (match_items (compiled mbox_pattern1) header_compact) as [segs1|] eqn:E1;
    [|vm_compute in E1; discriminate].
  destruct (match_items (compiled mbox_pattern1) header_multiline) as [segs2|] eqn:E2;
    [|vm_compute in E2; discriminate].
  exists segs1, segs2. split; [reflexivity|]. split; [reflexivity|].
  vm_compute in E1. injection E1 as <-.
  vm_compute in E2. injection E2 as <-.
  intros H. apply (f_equal length) in H. vm_compute in H. discriminate.
Qed.

(** C6: Leftmost, non-overlapping matching: a [re.sub] either finds no
    occurrence and returns the text with count 0, or splits the text
    into a part where no match starts, the leftmost match, and the
    rest; the match is replaced and the result for the rest, computed
    on the original text after the end of the match, is appended.  Two
    matches one after the other are both replaced, the second as it is
    matched in the original text. *)
Theorem leftmost_non_overlapping (pattern repl : text) (flags : list flag)
    (p : list item) (n : nat) (tm : list titem) :
  re_compile pattern = Ok (p, n) -> parse_template n repl = Ok tm ->
  consuming p = true ->
  (forall s,
      (~ occurs p s /\ re_subn pattern repl s flags = Ok (s, 0))
      \/ exists u segs rest out k,
           s = u ++ concat segs ++ rest
           /\ (forall u1 u2, u = u1 ++ u2 -> u2 <> [] ->
                 match_items p (u2 ++ concat segs ++ rest) = None)
           /\ match_items p (concat segs ++ rest) = Some segs
           /\ re_subn pattern repl rest flags = Ok (out, k)
           /\ re_subn pattern repl s flags
              = Ok (u ++ expand tm p segs ++ out, S k))
  /\ (forall segs1 segs2 rest,
         match_items p (concat segs1 ++ concat segs2 ++ rest) = Some segs1 ->
         match_items p (concat segs2 ++ rest) = Some segs2 ->
         exists out k,
           re_subn pattern repl rest flags = Ok (out, k)
           /\ re_subn pattern repl (concat segs1 ++ concat segs2 ++ rest) flags
              = Ok (expand tm p segs1 ++ expand tm p segs2 ++ out, S (S k))).
Proof.
  intros Hc Ht Hk.
  assert (forall s, re_subn pattern repl s flags = Ok (sub_scan p tm s 0)) as Hsub.
  { intros s. unfold re_subn. rewrite Hc. simpl. now rewrite Ht. }
  split.
  - intros s.
    destruct (sub_scan_first p tm Hk s)
      as [[Hh Ho]|(u & segs & rest & Hdec & Hm & Hu & Ho)].
    + left. split; [|now rewrite Hsub, Ho].
      intros Hocc. apply has_match_occurs in Hocc. congruence.
    + right. exists u, segs, rest, (sub_scan p tm rest 0).1, (sub_scan p tm rest 0).2.
      split; [assumption|]. split; [assumption|]. split; [assumption|].
      split; [rewrite Hsub; now destruct (sub_scan p tm rest 0)|].
      now rewrite Hsub, Ho.
  - intros segs1 segs2 rest H1 H2.
    exists (sub_scan p tm rest 0).1, (sub_scan p tm rest 0).2.
    split; [rewrite Hsub; now destruct (sub_scan p tm rest 0)|].
    rewrite Hsub.
    rewrite (sub_scan_match p tm _ segs1 (concat segs2 ++ rest) Hk H1 eq_refl).
    rewrite (sub_scan_match p tm _ segs2 rest Hk H2 eq_refl).
    reflexivity.
Qed.

(** Of two candidate matches that overlap, the left one is replaced and
    the scan resumes after it. *)
Example overlapping_candidates :
  re_subn (py "aa") (py "X") (py "aaa") [] = Ok (py "Xa", 1).
Proof. vm_compute. reflexivity. Qed.

Lemma leftmost_non_overlapping_witness :
  re_subn mbox_pattern3 mbox_repl3
    (body_run (py " ") (py " ") (py " ") ++ body_run nl nl nl) []
  = Ok (body_run_fixed ++ body_run_fixed, 2).
Proof.
  destruct (leftmost_non_overlapping mbox_pattern3 mbox_repl3 []
              (compiled mbox_pattern3) 0 (map TLit mbox_repl3))
    as [_ H]; [vm_compute; reflexivity..|].
  destruct (H (fill (compiled mbox_pattern3) [py " "; py " "; py " "])
              (fill (compiled mbox_pattern3) [nl; nl; nl]) [])
    as (out & k & Hrest & Hres); [vm_compute; reflexivity..|].
  vm_compute in Hrest. injection Hrest as <- <-.
  rewrite expand_lit in Hres.
  etransitivity; [|etransitivity; [exact Hres|]].
  - apply (f_equal (fun s => re_subn mbox_pattern3 mbox_repl3 s [])).
    vm_compute. reflexivity.
  - vm_compute. reflexivity.
Defined.

(** * The routines on files *)

Section Files.

Lemma fix_file_run path f msg w :
  fix_file path f msg w = fix_file_result path f msg w.
Proof.
  unfold fix_file, fix_file_result, mbind, IO_bind, read_text.
  destruct (files w !! path) as [t|]; [|reflexivity].
  unfold lift_outcome. destruct (f t) as [out| |]; try reflexivity.
  unfold write_text, emit. cbn [files readonly events].
  destruct (decide (path ∈ readonly w)); [reflexivity|].
  unfold print, emit. cbn [files readonly events].
  now rewrite <- !app_assoc.
Qed.

Lemma fix_mbox_file : fix_mbox = fix_file mbox_path fix_mbox_text "Fixed mbox.rs".
Proof. reflexivity. Qed.

Lemma fix_msg_file : fix_msg = fix_file msg_path fix_msg_text "Fixed msg.rs".
Proof. reflexivity. Qed.

Lemma fix_vcf_file : fix_vcf = fix_file vcf_path fix_vcf_text "Fixed vcf.rs".
Proof. reflexivity. Qed.

(** Each routine is its rule sequence run between the read and the
    write. *)
Lemma fix_routines_as_rules w :
  fix_mbox w = fix_file mbox_path (fun t => (run_rules mbox_rules t).2)
                 "Fixed mbox.rs" w
  /\ fix_msg w = fix_file msg_path (fun t => (run_rules msg_rules t).2)
                   "Fixed msg.rs" w
  /\ fix_vcf w = fix_file vcf_path (fun t => (run_rules vcf_rules t).2)
                   "Fixed vcf.rs" w.
Proof.
  rewrite fix_mbox_file, fix_msg_file, fix_vcf_file, !fix_file_run.
  unfold fix_file_result.
  split; [|split]; destruct (files w !! _); try reflexivity.
  - now rewrite fix_mbox_text_rules.
  - now rewrite fix_msg_text_rules.
  - now rewrite fix_vcf_text_rules.
Qed.

(** Two runs on the same text write the same text. *)
Lemma fix_file_deterministic path f msg w1 w2 t out :
  f t = Ok out ->
  files w1 !! path = Some t -> files w2 !! path = Some t ->
  path ∉ readonly w1 -> path ∉ readonly w2 ->
  files (fix_file path f msg w1).2 !! path = Some out
  /\ files (fix_file path f msg w2).2 !! path = Some out
  /\ events (fix_file path f msg w1).2
     = events w1 ++ [EvRead path; EvWrite path out; EvPrint msg]
  /\ events (fix_file path f msg w2).2
     = events w2 ++ [EvRead path; EvWrite path out; EvPrint msg].
Proof.
  intros Hf H1 H2 Hr1 Hr2. rewrite !fix_file_run. unfold fix_file_result.
  rewrite H1, H2, Hf.
  destruct (decide (path ∈ readonly w1)); [contradiction|].
  destruct (decide (path ∈ readonly w2)); [contradiction|].
  cbn [snd files events]. rewrite !lookup_insert_eq. auto.
Qed.









End Files.

(** C8: Purity and determinism: the text a routine writes is a function
    of the text it read.  Two runs in any two worlds that hold the same
    text at the path write the same text, whatever else the worlds
    contain, and between the read and the write no file is read or
    written. *)
Theorem transformation_deterministic (w1 w2 : world) (t : text) :
  (files w1 !! mbox_path = Some t -> files w2 !! mbox_path = Some t ->
   mbox_path ∉ readonly w1 -> mbox_path ∉ readonly w2 ->
   exists out,
     fix_mbox_text t = Ok out
     /\ files (fix_mbox w1).2 !! mbox_path = Some out
     /\ files (fix_mbox w2).2 !! mbox_path = Some out
     /\ events (fix_mbox w1).2
        = events w1 ++ [EvRead mbox_path; EvWrite mbox_path out; EvPrint "Fixed mbox.rs"]
     /\ events (fix_mbox w2).2
        = events w2 ++ [EvRead mbox_path; EvWrite mbox_path out; EvPrint "Fixed mbox.rs"])
  /\ (files w1 !! msg_path = Some t -> files w2 !! msg_path = Some t ->
      msg_path ∉ readonly w1 -> msg_path ∉ readonly w2 ->
      exists out,
        fix_msg_text t = Ok out
        /\ files (fix_msg w1).2 !! msg_path = Some out
        /\ files (fix_msg w2).2 !! msg_path = Some out
        /\ events (fix_msg w1).2
           = events w1 ++ [EvRead msg_path; EvWrite msg_path out; EvPrint "Fixed msg.rs"]
        /\ events (fix_msg w2).2
           = events w2 ++ [EvRead msg_path; EvWrite msg_path out; EvPrint "Fixed msg.rs"])
  /\ (files w1 !! vcf_path = Some t -> files w2 !! vcf_path = Some t ->
      vcf_path ∉ readonly w1 -> vcf_path ∉ readonly w2 ->
      exists out,
        fix_vcf_text t = Ok out
        /\ files (fix_vcf w1).2 !! vcf_path = Some out
        /\ files (fix_vcf w2).2 !! vcf_path = Some out
        /\ events (fix_vcf w1).2
           = events w1 ++ [EvRead vcf_path; EvWrite vcf_path out; EvPrint "Fixed vcf.rs"]
        /\ events (fix_vcf w2).2
           = events w2 ++ [EvRead vcf_path; EvWrite vcf_path out; EvPrint "Fixed vcf.rs"]).
Proof.
  split; [|split]; intros H1 H2 Hr1 Hr2.
  - exists (run_compiled mbox_compiled t). split; [apply fix_mbox_text_run|].
    rewrite fix_mbox_file.
    apply (fix_file_deterministic _ _ _ w1 w2 t); auto using fix_mbox_text_run.
  - exists (run_compiled msg_compiled t). split; [apply fix_msg_text_run|].
    rewrite fix_msg_file.
    apply (fix_file_deterministic _ _ _ w1 w2 t); auto using fix_msg_text_run.
  - exists (run_compiled vcf_compiled t). split; [apply fix_vcf_text_run|].
    rewrite fix_vcf_file.
    apply (fix_file_deterministic _ _ _ w1 w2 t); auto using fix_vcf_text_run.
Qed.

Lemma transformation_deterministic_witness :
  exists out,
    fix_mbox_text header_compact = Ok out
    /\ files (fix_mbox sample_world).2 !! mbox_path = Some out
    /\ files (fix_mbox other_world).2 !! mbox_path = Some out.
Proof.
  destruct (transformation_deterministic sample_world other_world header_compact)
    as [H _].
  destruct H as (out & Ho & H1 & H2 & _).
  - apply lookup_singleton_eq.
  - cbn [other_world files]. rewrite lookup_insert_ne by discriminate.
    apply lookup_singleton_eq.
  - apply not_elem_of_empty.
  - apply not_elem_of_empty.
  - exists out. auto.
Defined.



(** * Further properties of the routines *)

Section Targets.

Lemma compile_rules_in r : forall rs cs,
  compile_rules rs = Ok cs -> In r rs ->
  exists c, In c cs /\ compile_rule r = Ok c.
Proof.
  induction rs as [|r0 rs IH]; intros cs Hc Hin; [destruct Hin|].
  simpl in Hc.
  destruct (compile_rule r0) as [c0| |] eqn:E0; simpl in Hc; try discriminate.
  destruct (compile_rules rs) as [cs'| |] eqn:Ecs; simpl in Hc; try discriminate.
  injection Hc as <-. destruct Hin as [->|Hin].
  - exists c0. split; [now left | assumption].
  - destruct (IH cs' eq_refl Hin) as (c & Hc & Hr).
    exists c. split; [now right | assumption].
Qed.

Lemma rule_occurs_compiled r c s :
  compile_rule r = Ok c -> rule_occurs r s -> occurs c.1 s.
Proof.
  destruct r as [pattern repl flags|old new]; simpl.
  - intros Hc (p & n & Hp & Ho). rewrite Hp in Hc. simpl in Hc.
    destruct (parse_template n repl) as [t| |]; simpl in Hc; try discriminate.
    now injection Hc as <-.
  - intros [= <-]. simpl. apply occurs_lit.
Qed.

Lemma run_free_of_rules rs cs t :
  compile_rules rs = Ok cs -> check_from [] cs = true ->
  forall r, In r rs -> ~ rule_occurs r (run_compiled cs t).
Proof.
  intros Hc Hck r Hin Ho.
  destruct (compile_rules_in r rs cs Hc Hin) as (c & Hcin & Hcr).
  apply (run_compiled_free cs t c Hck Hcin).
  now apply rule_occurs_compiled with r.
Qed.

End Targets.

(** X1: What a routine returns holds no construct that any of its rules
    targets: one pass fixes every occurrence, also those that an
    earlier replacement might have brought about. *)
Theorem all_targets_fixed (t : text) :
  (exists out, fix_mbox_text t = Ok out
               /\ forall r, In r mbox_rules -> ~ rule_occurs r out)
  /\ (exists out, fix_msg_text t = Ok out
                  /\ forall r, In r msg_rules -> ~ rule_occurs r out)
  /\ (exists out, fix_vcf_text t = Ok out
                  /\ forall r, In r vcf_rules -> ~ rule_occurs r out).
Proof.
  split; [|split].
  - exists (run_compiled mbox_compiled t). split; [apply fix_mbox_text_run|].
    apply run_free_of_rules; [apply mbox_compiles | apply mbox_checked].
  - exists (run_compiled msg_compiled t). split; [apply fix_msg_text_run|].
    apply run_free_of_rules; [apply msg_compiles | apply msg_checked].
  - exists (run_compiled vcf_compiled t). split; [apply fix_vcf_text_run|].
    apply run_free_of_rules; [apply vcf_compiles | apply vcf_checked].
Qed.

Lemma all_targets_fixed_witness :
  exists out, fix_mbox_text header_compact = Ok out
              /\ ~ rule_occurs (RSub mbox_pattern1 mbox_repl1 [DOTALL]) out.
Proof.
  destruct (all_targets_fixed header_compact) as [(out & Ho & H) _].
  exists out. split; [exact Ho|]. apply H. left. reflexivity.
Defined.

(** X2: A routine returns its input unchanged exactly when the input
    holds nothing that any of its rules targets. *)
Theorem unchanged_iff_nothing_to_fix (t : text) :
  (fix_mbox_text t = Ok t <-> forall r, In r mbox_rules -> ~ rule_occurs r t)
  /\ (fix_msg_text t = Ok t <-> forall r, In r msg_rules -> ~ rule_occurs r t)
  /\ (fix_vcf_text t = Ok t <-> forall r, In r vcf_rules -> ~ rule_occurs r t).
Proof.
  split; [|split]; split.
  - intros H r Hr. rewrite fix_mbox_text_run in H. injection H as H.
    rewrite <- H.
    now apply (run_free_of_rules _ _ t mbox_compiles mbox_checked).
  - intros H. rewrite fix_mbox_text_rules.
    now rewrite (run_rules_untouched _ _ t mbox_compiles H).
  - intros H r Hr. rewrite fix_msg_text_run in H. injection H as H.
    rewrite <- H.
    now apply (run_free_of_rules _ _ t msg_compiles msg_checked).
  - intros H. rewrite fix_msg_text_rules.
    now rewrite (run_rules_untouched _ _ t msg_compiles H).
  - intros H r Hr. rewrite fix_vcf_text_run in H. injection H as H.
    rewrite <- H.
    now apply (run_free_of_rules _ _ t vcf_compiles vcf_checked).
  - intros H. rewrite fix_vcf_text_rules.
    now rewrite (run_rules_untouched _ _ t vcf_compiles H).
Qed.

Lemma unchanged_iff_nothing_to_fix_witness :
  fix_mbox_text plain_text = Ok plain_text
  /\ ~ (forall r, In r mbox_rules -> ~ rule_occurs r header_compact).
Proof.
  destruct (unchanged_iff_nothing_to_fix plain_text) as [[_ H1] _].
  destruct (unchanged_iff_nothing_to_fix header_compact) as [[_ H2] _].
  split.
  - apply H1. apply untouched_by_spec. vm_compute. reflexivity.
  - intros H. specialize (H2 H). vm_compute in H2. discriminate.
Defined.

Section Required_literal.

Lemma lang_app_inv p1 p2 w :
  lang (p1 ++ p2) w ->
  exists w1 w2, w = w1 ++ w2 /\ lang p1 w1 /\ lang p2 w2.
Proof.
  intros (segs & HF & <-).
  apply Forall2_app_inv_l in HF as (s1 & s2 & H1 & H2 & ->).
  exists (concat s1), (concat s2). split; [apply concat_app|].
  split; [now exists s1 | now exists s2].
Qed.

(** A literal stretch of a pattern is part of every text it matches. *)
Lemma lit_inside p l k s :
  p = take k p ++ lit l ++ drop (k + length l) p ->
  occurs p s -> contains l s.
Proof.
  intros Hp (a & w & b & -> & Hw). rewrite Hp in Hw.
  apply lang_app_inv in Hw as (w1 & w23 & -> & _ & Hw).
  apply lang_app_inv in Hw as (w2 & w3 & -> & Hw2 & _).
  apply lang_lit in Hw2 as ->.
  exists (a ++ w1), (w3 ++ b). now rewrite <- !app_assoc.
Qed.

Lemma re_sub_free pattern repl flags p n tm s :
  re_compile pattern = Ok (p, n) -> parse_template n repl = Ok tm ->
  ~ occurs p s -> re_sub pattern repl s flags = Ok s.
Proof.
  intros Hc Ht Hf. unfold re_sub, re_subn. rewrite Hc. simpl. rewrite Ht. simpl.
  now rewrite sub_scan_free.
Qed.

Lemma re_sub_needs_literal pattern repl flags l k s :
  (match re_compile pattern with
   | Ok pn =>
       match parse_template pn.2 repl with
       | Ok _ => true
       | _ => false
       end
   | _ => false
   end) = true ->
  compiled pattern
  = take k (compiled pattern) ++ lit l ++ drop (k + length l) (compiled pattern) ->
  ~ contains l s -> re_sub pattern repl s flags = Ok s.
Proof.
  unfold compiled. destruct (re_compile pattern) as [[p n]| |] eqn:Ec; try discriminate.
  cbn [fst snd]. destruct (parse_template n repl) as [tm| |] eqn:Et; try discriminate.
  intros _ Hp Hl. apply (re_sub_free pattern repl flags p n tm); try assumption.
  intros Ho. apply Hl. now apply (lit_inside p l k).
Qed.

End Required_literal.

(** X3: The header rules of the three routines and the note rule of
    [fix_vcf] rewrite a text only if it holds the [text:] field with the
    format string written with two closing braces, [{}: {}}\n] (for the
    note rule [{}}\n]): a text without that exact field is returned
    unchanged by them. *)
Theorem header_rule_needs_double_brace (s : text) :
  (~ contains brace_literal s ->
   re_sub mbox_pattern1 mbox_repl1 s [DOTALL] = Ok s
   /\ re_sub msg_pattern2 msg_repl2 s [DOTALL] = Ok s
   /\ re_sub vcf_pattern1 vcf_repl1 s [DOTALL] = Ok s)
  /\ (~ contains note_brace_literal s ->
      re_sub vcf_pattern3 vcf_repl3 s [] = Ok s).
Proof.
  split; [intros H; split; [|split]|intros H].
  - apply (re_sub_needs_literal _ _ _ brace_literal 80);
      [vm_compute; reflexivity.. | exact H].
  - apply (re_sub_needs_literal _ _ _ brace_literal 80);
      [vm_compute; reflexivity.. | exact H].
  - apply (re_sub_needs_literal _ _ _ brace_literal 85);
      [vm_compute; reflexivity.. | exact H].
  - apply (re_sub_needs_literal _ _ _ note_brace_literal 25);
      [vm_compute; reflexivity.. | exact H].
Qed.

Lemma header_rule_needs_double_brace_witness :
  re_sub mbox_pattern1 mbox_repl1 plain_header [DOTALL] = Ok plain_header
  /\ re_sub msg_pattern2 msg_repl2 plain_header [DOTALL] = Ok plain_header
  /\ re_sub vcf_pattern1 vcf_repl1 plain_header [DOTALL] = Ok plain_header
  /\ re_sub vcf_pattern3 vcf_repl3 plain_header [] = Ok plain_header.
Proof.
  destruct (header_rule_needs_double_brace plain_header) as [H1 H2].
  assert (~ contains brace_literal plain_header) as Hn1.
  { intros Ho. apply occurs_lit, has_match_occurs in Ho.
    vm_compute in Ho. discriminate. }
  assert (~ contains note_brace_literal plain_header) as Hn2.
  { intros Ho. apply occurs_lit, has_match_occurs in Ho.
    vm_compute in Ho. discriminate. }
  destruct (H1 Hn1) as (Ha & Hb & Hc).
  split; [exact Ha|]. split; [exact Hb|]. split; [exact Hc|]. exact (H2 Hn2).
Defined.

Section Shape_guard.

Lemma infix_b_spec x : forall y a b, y = a ++ x ++ b -> infix_b x y = true.
Proof.
  intros y a b ->. induction a as [|c a IH].
  - simpl app. destruct (x ++ b) eqn:E; simpl;
      (replace (starts_with x _) with true; [reflexivity|]);
      symmetry; apply starts_with_prefix; rewrite <- E; now exists b.
  - simpl. rewrite IH. apply orb_true_r.
Qed.

Lemma occurs_shape p s :
  plus_on_space p = true -> occurs p s ->
  exists a b, squash s = a ++ shape p ++ b.
Proof.
  intros Hp (a & w & b & -> & Hw).
  destruct (squash_suffix a (w ++ b)) as [z Hz].
  destruct (squash_prefix w b) as [z' Hz'].
  exists z, z'. rewrite Hz, Hz'. now rewrite (lang_squash p w Hp Hw).
Qed.

Lemma shapes_absent_fixed cs s :
  shapes_absent cs (squash s) = true -> run_compiled cs s = s.
Proof.
  unfold shapes_absent. rewrite forallb_forall. intros H.
  apply run_compiled_fixed. intros c Hc Ho.
  specialize (H c Hc). apply andb_true_iff in H as [Hp Hn].
  destruct (occurs_shape c.1 s Hp Ho) as (a & b & Hs).
  rewrite (infix_b_spec _ _ a b Hs) in Hn. discriminate.
Qed.

Lemma layout_shape q runs :
  anchored q = true -> plus_on_space q = true -> only_space_plus q = true ->
  length runs = plus_count q -> forallb blank runs = true ->
  squash (layout q runs) = shape q.
Proof.
  intros Ha Hp Ho Hl Hb. apply lang_squash; [assumption|].
  exists (fill q runs). split; [|reflexivity].
  apply fill_seg_ok; [assumption|]. now apply runs_ok_blank.
Qed.

End Shape_guard.

(** X4: The [TextRun] and [TextBlock] rules need a comma after the last
    field.  A body-text call or a [TextBlock] construction written
    without it, with any non-empty whitespace between its tokens, is
    returned unchanged by the whole transformation of [fix_mbox]. *)
Theorem missing_trailing_comma_unchanged (w1 w2 w3 : text) :
  blank w1 = true -> blank w2 = true -> blank w3 = true ->
  fix_mbox_text (body_run_no_comma w1 w2 w3) = Ok (body_run_no_comma w1 w2 w3)
  /\ fix_mbox_text (text_block_no_comma w1 w2 w3)
     = Ok (text_block_no_comma w1 w2 w3).
Proof.
  intros H1 H2 H3.
  assert (forallb blank [w1; w2; w3] = true) as Hb.
  { cbn [forallb]. now rewrite H1, H2, H3. }
  split; rewrite fix_mbox_text_run; f_equal; apply shapes_absent_fixed.
  - assert (body_run_no_comma w1 w2 w3
            = layout (compiled body_run_no_comma_form) [w1; w2; w3]) as ->
      by (vm_compute; reflexivity).
    rewrite layout_shape; try (vm_compute; reflexivity). exact Hb.
  - assert (text_block_no_comma w1 w2 w3
            = layout (compiled text_block_no_comma_form) [w1; w2; w3]) as ->
      by (vm_compute; reflexivity).
    rewrite layout_shape; try (vm_compute; reflexivity). exact Hb.
Qed.

Lemma missing_trailing_comma_unchanged_witness :
  fix_mbox_text (body_run_no_comma (py " ") (nl ++ py "    ") (py " "))
  = Ok (body_run_no_comma (py " ") (nl ++ py "    ") (py " "))
  /\ fix_mbox_text (text_block_no_comma (py " ") (nl ++ py "    ") (py " "))
     = Ok (text_block_no_comma (py " ") (nl ++ py "    ") (py " ")).
Proof.
  apply (missing_trailing_comma_unchanged (py " ") (nl ++ py "    ") (py " "));
    vm_compute; reflexivity.
Defined.

Section Header_layout.

Ltac flatten_app :=
  vm_compute; fold (@app N); repeat (rewrite <- app_assoc; cbn [app]);
  reflexivity.

Lemma header_expand pattern repl flags n tm runs out :
  re_compile pattern = Ok (compiled pattern, n) ->
  parse_template n repl = Ok tm ->
  pattern_facts pattern = true ->
  length runs = plus_count (compiled pattern) -> forallb blank runs = true ->
  expand tm (compiled pattern) (fill (compiled pattern) runs) = out ->
  re_sub pattern repl (layout (compiled pattern) runs) flags = Ok out.
Proof.
  intros Hc Ht Hf Hl Hb <-.
  destruct (pattern_facts_spec pattern Hf) as (n' & _ & Ha & Ho & Hp & Hk).
  apply (re_sub_layout pattern repl flags _ n); try assumption.
  now apply runs_ok_blank.
Qed.

Lemma mbox_header_expand (r1 r2 r3 r4 r5 r6 r7 : text) tm :
  parse_template 2 mbox_repl1 = Ok tm ->
  expand tm (compiled mbox_pattern1)
    (fill (compiled mbox_pattern1) [r1; r2; r3; r4; r5; r6; r7])
  = layout (compiled mbox_pattern1) [r1; r2; r3; r4; r5; r6; header_fields].
Proof. intros Ht. vm_compute in Ht. injection Ht as <-. flatten_app. Qed.

Lemma vcf_header_expand (r1 r2 r3 r4 r5 r6 r7 : text) tm :
  parse_template 2 vcf_repl1 = Ok tm ->
  expand tm (compiled vcf_pattern1)
    (fill (compiled vcf_pattern1) [r1; r2; r3; r4; r5; r6; r7])
  = layout (compiled vcf_pattern1) [r1; r2; r3; r4; r5; r6; header_fields].
Proof. intros Ht. vm_compute in Ht. injection Ht as <-. flatten_app. Qed.

End Header_layout.

(** X5: The header rules keep the layout of the method they rewrite:
    for any non-empty whitespace runs between the tokens, the result is
    the same text with the run before the closing brace replaced by the
    two field lines; all other whitespace stays as it was. *)
Theorem header_layout_kept (r1 r2 r3 r4 r5 r6 r7 : text) :
  forallb blank [r1; r2; r3; r4; r5; r6; r7] = true ->
  re_sub mbox_pattern1 mbox_repl1
    (layout (compiled mbox_pattern1) [r1; r2; r3; r4; r5; r6; r7]) [DOTALL]
  = Ok (layout (compiled mbox_pattern1) [r1; r2; r3; r4; r5; r6; header_fields])
  /\ re_sub msg_pattern2 msg_repl2
       (layout (compiled msg_pattern2) [r1; r2; r3; r4; r5; r6; r7]) [DOTALL]
     = Ok (layout (compiled msg_pattern2) [r1; r2; r3; r4; r5; r6; header_fields])
  /\ re_sub vcf_pattern1 vcf_repl1
       (layout (compiled vcf_pattern1) [r1; r2; r3; r4; r5; r6; r7]) [DOTALL]
     = Ok (layout (compiled vcf_pattern1) [r1; r2; r3; r4; r5; r6; header_fields]).
Proof.
  intros Hb. split; [|split].
  - destruct (parse_template 2 mbox_repl1) as [tm| |] eqn:Et;
      try (vm_compute in Et; discriminate).
    apply (header_expand _ _ _ 2 tm);
      [vm_compute; reflexivity | exact Et | vm_compute; reflexivity
      | vm_compute; reflexivity | exact Hb | now apply mbox_header_expand].
  - destruct (parse_template 2 msg_repl2) as [tm| |] eqn:Et;
      try (vm_compute in Et; discriminate).
    apply (header_expand _ _ _ 2 tm);
      [vm_compute; reflexivity | exact Et | vm_compute; reflexivity
      | vm_compute; reflexivity | exact Hb | now apply mbox_header_expand].
  - destruct (parse_template 2 vcf_repl1) as [tm| |] eqn:Et;
      try (vm_compute in Et; discriminate).
    apply (header_expand _ _ _ 2 tm);
      [vm_compute; reflexivity | exact Et | vm_compute; reflexivity
      | vm_compute; reflexivity | exact Hb | now apply vcf_header_expand].
Qed.

Lemma header_layout_kept_witness :
  re_sub mbox_pattern1 mbox_repl1 header_compact [DOTALL]
  = Ok (layout (compiled mbox_pattern1)
          [py " "; py " "; py " "; py " "; py " "; py " "; header_fields]).
Proof.
  destruct (header_layout_kept (py " ") (py " ") (py " ") (py " ") (py " ")
              (py " ") (py " ")) as [H _]; [vm_compute; reflexivity|].
  etransitivity; [|exact H].
  apply (f_equal (fun s => re_sub mbox_pattern1 mbox_repl1 s [DOTALL])).
  vm_compute. reflexivity.
Defined.

(** X6: The newline rule does not keep the escape of the string it
    rewrites: whatever the whitespace of the call, the result is one
    fixed text whose string literal holds a line feed in place of the
    two characters backslash and n. *)
Theorem newline_rule_writes_line_feed (w1 w2 w3 : text) :
  blank w1 = true -> blank w2 = true -> blank w3 = true ->
  re_sub mbox_pattern2 mbox_repl2 (newline_run w1 w2 w3) [] = Ok newline_run_fixed
  /\ re_sub msg_pattern3 msg_repl3 (newline_run w1 w2 w3) [] = Ok newline_run_fixed
  /\ contains (dq ++ nl ++ dq) newline_run_fixed
  /\ ~ contains (dq ++ py "\n" ++ dq) newline_run_fixed.
Proof.
  intros H1 H2 H3.
  assert (forallb blank [w1; w2; w3] = true) as Hb.
  { cbn [forallb]. now rewrite H1, H2, H3. }
  assert (newline_run w1 w2 w3 = layout (compiled mbox_pattern2) [w1; w2; w3]) as ->
    by (vm_compute; reflexivity).
  split; [|split; [|split]].
  - apply (header_expand _ _ _ 0 (map TLit newline_run_fixed));
      [vm_compute; reflexivity | vm_compute; reflexivity | vm_compute; reflexivity
      | vm_compute; reflexivity | exact Hb | apply expand_lit].
  - change (compiled mbox_pattern2) with (compiled msg_pattern3).
    apply (header_expand _ _ _ 0 (map TLit newline_run_fixed));
      [vm_compute; reflexivity | vm_compute; reflexivity | vm_compute; reflexivity
      | vm_compute; reflexivity | exact Hb | apply expand_lit].
  - apply occurs_lit, has_match_occurs. vm_compute. reflexivity.
  - intros Ho. apply occurs_lit, has_match_occurs in Ho.
    vm_compute in Ho. discriminate.
Qed.

Lemma newline_rule_writes_line_feed_witness :
  re_sub mbox_pattern2 mbox_repl2
    (newline_run (py " ") (nl ++ py "  ") (py " ")) [] = Ok newline_run_fixed.
Proof.
  apply (newline_rule_writes_line_feed (py " ") (nl ++ py "  ") (py " "));
    vm_compute; reflexivity.
Defined.

(** * The main block *)

Section Main.

Lemma paths_distinct :
  mbox_path <> msg_path /\ mbox_path <> vcf_path /\ msg_path <> vcf_path.
Proof.
  repeat split; intros H; apply String.eqb_eq in H; vm_compute in H;
    discriminate.
Qed.

Lemma routine_run path f g msg w :
  (forall t, f t = Ok (g t)) ->
  fix_file path f msg w
  = match files w !! path with
    | None => (Raise (FileNotFoundError path), w)
    | Some t =>
        if decide (path ∈ readonly w)
        then (Raise (PermissionError path), emit (EvRead path) w)
        else (Val tt,
              World (<[path := g t]> (files w)) (readonly w)
                    (events w ++ [EvRead path; EvWrite path (g t); EvPrint msg]))
    end.
Proof.
  intros Hf. rewrite fix_file_run. unfold fix_file_result.
  destruct (files w !! path) as [t|]; [|reflexivity]. now rewrite Hf.
Qed.

(** Files and outcome of one routine. *)
Lemma routine_stage path f g msg w :
  (forall t, f t = Ok (g t)) ->
  readonly (fix_file path f msg w).2 = readonly w
  /\ match stage_files path g (readonly w) (files w) with
     | Some fs => succeeded (fix_file path f msg w).1 = true
                  /\ files (fix_file path f msg w).2 = fs
     | None => succeeded (fix_file path f msg w).1 = false
               /\ files (fix_file path f msg w).2 = files w
     end.
Proof.
  intros Hf. rewrite (routine_run path f g msg w Hf). unfold stage_files.
  destruct (files w !! path) as [t|]; [|auto].
  destruct (decide (path ∈ readonly w)); auto.
Qed.

Lemma main_unfold w :
  main w
  = match fix_mbox w with
    | (Val _, w1) =>
        match fix_msg w1 with
        | (Val _, w2) =>
            match fix_vcf w2 with
            | (Val _, w3) => (Val tt, emit (EvPrint "All email parsers fixed!") w3)
            | (Raise e, w3) => (Raise e, w3)
            end
        | (Raise e, w2) => (Raise e, w2)
        end
    | (Raise e, w1) => (Raise e, w1)
    end.
Proof.
  unfold main, mbind, IO_bind, print.
  destruct (fix_mbox w) as [[[]|e] w1]; [|reflexivity].
  destruct (fix_msg w1) as [[[]|e] w2]; [|reflexivity].
  destruct (fix_vcf w2) as [[[]|e] w3]; reflexivity.
Qed.

(** Files and outcome of the main block. *)
Lemma main_stage w :
  readonly (main w).2 = readonly w
  /\ succeeded (main w).1 = (main_files g_mbox g_msg g_vcf (readonly w) (files w)).1
  /\ files (main w).2 = (main_files g_mbox g_msg g_vcf (readonly w) (files w)).2.
Proof.
  rewrite main_unfold. unfold main_files.
  rewrite fix_mbox_file, fix_msg_file, fix_vcf_file.
  destruct (routine_stage mbox_path fix_mbox_text g_mbox "Fixed mbox.rs" w
              fix_mbox_text_run) as [Hr1 H1].
  destruct (fix_file mbox_path fix_mbox_text "Fixed mbox.rs" w) as [r1 w1].
  cbn [fst snd] in *.
  destruct (stage_files mbox_path g_mbox (readonly w) (files w)) as [fs1|].
  2:{ destruct H1 as [H1 H1']. destruct r1; [discriminate|]. cbn. auto. }
  destruct H1 as [H1 <-]. destruct r1 as [[]|]; [|discriminate].
  destruct (routine_stage msg_path fix_msg_text g_msg "Fixed msg.rs" w1
              fix_msg_text_run) as [Hr2 H2].
  destruct (fix_file msg_path fix_msg_text "Fixed msg.rs" w1) as [r2 w2].
  cbn [fst snd] in *. rewrite Hr1 in H2.
  destruct (stage_files msg_path g_msg (readonly w) (files w1)) as [fs2|].
  2:{ destruct H2 as [H2 H2']. destruct r2; [discriminate|]. cbn.
      split; [congruence | auto]. }
  destruct H2 as [H2 <-]. destruct r2 as [[]|]; [|discriminate].
  destruct (routine_stage vcf_path fix_vcf_text g_vcf "Fixed vcf.rs" w2
              fix_vcf_text_run) as [Hr3 H3].
  destruct (fix_file vcf_path fix_vcf_text "Fixed vcf.rs" w2) as [r3 w3].
  cbn [fst snd] in *. rewrite Hr2, Hr1 in H3.
  destruct (stage_files vcf_path g_vcf (readonly w) (files w2)) as [fs3|].
  2:{ destruct H3 as [H3 H3']. destruct r3; [discriminate|]. cbn.
      split; [congruence | auto]. }
  destruct H3 as [H3 <-]. destruct r3 as [[]|]; [|discriminate].
  cbn. split; [congruence | auto].
Qed.

End Main.

Section Main_files.

Variables g1 g2 g3 : text -> text.
Variable ro : gset string.

Lemma stage_some p g fs fs' :
  stage_files p g ro fs = Some fs' ->
  exists t, fs !! p = Some t /\ (p ∉ ro) /\ fs' = <[p := g t]> fs.
Proof.
  unfold stage_files. destruct (fs !! p) as [t|]; [|discriminate].
  destruct (decide (p ∈ ro)); [discriminate|].
  intros [= <-]. now exists t.
Qed.




Lemma stage_dom p g fs fs' :
  stage_files p g ro fs = Some fs' -> dom fs' = dom fs.
Proof.
  intros H. apply stage_some in H as (t & Hl & _ & ->).
  apply dom_insert_lookup_L. now exists t.
Qed.

Lemma stage_frame p g fs fs' q :
  stage_files p g ro fs = Some fs' -> q <> p -> fs' !! q = fs !! q.
Proof.
  intros H Hq. apply stage_some in H as (t & _ & _ & ->).
  now rewrite lookup_insert_ne by congruence.
Qed.

Hypothesis Hg1 : forall x, g1 (g1 x) = g1 x.
Hypothesis Hg2 : forall x, g2 (g2 x) = g2 x.
Hypothesis Hg3 : forall x, g3 (g3 x) = g3 x.


Lemma main_files_dom fs : dom (main_files g1 g2 g3 ro fs).2 = dom fs.
Proof.
  unfold main_files.
  destruct (stage_files mbox_path g1 ro fs) as [fs1|] eqn:E1; [|reflexivity].
  pose proof (stage_dom _ _ _ _ E1) as D1.
  destruct (stage_files msg_path g2 ro fs1) as [fs2|] eqn:E2; [|exact D1].
  pose proof (stage_dom _ _ _ _ E2) as D2.
  destruct (stage_files vcf_path g3 ro fs2) as [fs3|] eqn:E3; cbn [snd];
    [|congruence].
  pose proof (stage_dom _ _ _ _ E3) as D3. congruence.
Qed.

Lemma main_files_frame fs q :
  q <> mbox_path -> q <> msg_path -> q <> vcf_path ->
  (main_files g1 g2 g3 ro fs).2 !! q = fs !! q.
Proof.
  intros Q1 Q2 Q3. unfold main_files.
  destruct (stage_files mbox_path g1 ro fs) as [fs1|] eqn:E1; [|reflexivity].
  pose proof (stage_frame _ _ _ _ q E1 Q1) as F1.
  destruct (stage_files msg_path g2 ro fs1) as [fs2|] eqn:E2; [|exact F1].
  pose proof (stage_frame _ _ _ _ q E2 Q2) as F2.
  destruct (stage_files vcf_path g3 ro fs2) as [fs3|] eqn:E3; cbn [snd];
    [|congruence].
  pose proof (stage_frame _ _ _ _ q E3 Q3) as F3. congruence.
Qed.

End Main_files.

Section Main_cases.

Lemma routine_fails path f g msg w :
  (forall t, f t = Ok (g t)) -> ~ usable w path ->
  (fix_file path f msg w).1 = Raise (failure w path)
  /\ files (fix_file path f msg w).2 = files w
  /\ readonly (fix_file path f msg w).2 = readonly w.
Proof.
  intros Hf Hu. rewrite (routine_run path f g msg w Hf).
  unfold usable, failure in *.
  destruct (files w !! path) as [t|] eqn:E; [|auto].
  destruct (decide (path ∈ readonly w)); [auto|].
  exfalso. apply Hu. split; [eauto | assumption].
Qed.

Lemma routine_succeeds path f g msg w t :
  (forall t, f t = Ok (g t)) ->
  files w !! path = Some t -> path ∉ readonly w ->
  fix_file path f msg w
  = (Val tt,
     World (<[path := g t]> (files w)) (readonly w)
           (events w ++ [EvRead path; EvWrite path (g t); EvPrint msg])).
Proof.
  intros Hf Hl Hr. rewrite (routine_run path f g msg w Hf), Hl.
  destruct (decide (path ∈ readonly w)); [contradiction | reflexivity].
Qed.

Lemma usable_insert fs ro ev ev' path p x :
  p <> path ->
  usable (World (<[p := x]> fs) ro ev) path <-> usable (World fs ro ev') path.
Proof.
  intros Hne. unfold usable. cbn [files readonly].
  now rewrite lookup_insert_ne by assumption.
Qed.

Lemma usable_world w ev path :
  usable (World (files w) (readonly w) ev) path <-> usable w path.
Proof. reflexivity. Qed.

Lemma failure_insert fs ro ev ev' path p x :
  p <> path ->
  failure (World (<[p := x]> fs) ro ev) path = failure (World fs ro ev') path.
Proof.
  intros Hne. unfold failure. cbn [files].
  now rewrite lookup_insert_ne by assumption.
Qed.

Lemma failure_world w ev path :
  failure (World (files w) (readonly w) ev) path = failure w path.
Proof. reflexivity. Qed.

End Main_cases.

(** X7: The main block has no handling per file.  The first routine
    whose file is missing or read-only ends the run with its exception
    ([FileNotFoundError] or [PermissionError]); the files of the
    routines before it stay rewritten and the files after it are left as
    they were. *)
Theorem main_stops_at_first_failure (w : world) :
  (~ usable w mbox_path ->
   (main w).1 = Raise (failure w mbox_path) /\ files (main w).2 = files w)
  /\ (forall t1,
         files w !! mbox_path = Some t1 -> mbox_path ∉ readonly w ->
         ~ usable w msg_path ->
         exists o1,
           fix_mbox_text t1 = Ok o1
           /\ (main w).1 = Raise (failure w msg_path)
           /\ files (main w).2 = <[mbox_path := o1]> (files w))
  /\ (forall t1 t2,
         files w !! mbox_path = Some t1 -> mbox_path ∉ readonly w ->
         files w !! msg_path = Some t2 -> msg_path ∉ readonly w ->
         ~ usable w vcf_path ->
         exists o1 o2,
           fix_mbox_text t1 = Ok o1 /\ fix_msg_text t2 = Ok o2
           /\ (main w).1 = Raise (failure w vcf_path)
           /\ files (main w).2
              = <[msg_path := o2]> (<[mbox_path := o1]> (files w))).
Proof.
  destruct paths_distinct as (H12 & H13 & H23).
  split; [|split].
  - intros Hu. rewrite main_unfold, fix_mbox_file.
    destruct (routine_fails mbox_path fix_mbox_text g_mbox "Fixed mbox.rs" w
                fix_mbox_text_run Hu) as (He & Hfs & _).
    destruct (fix_file mbox_path fix_mbox_text "Fixed mbox.rs" w) as [r w1].
    cbn [fst snd] in *. subst r. auto.
  - intros t1 Hl1 Hr1 Hu. exists (g_mbox t1). split; [apply fix_mbox_text_run|].
    rewrite main_unfold, fix_mbox_file.
    rewrite (routine_succeeds _ _ g_mbox _ w t1 fix_mbox_text_run Hl1 Hr1).
    rewrite fix_msg_file.
    match goal with |- context [fix_file msg_path _ _ ?w1] =>
      destruct (routine_fails msg_path fix_msg_text g_msg "Fixed msg.rs" w1
                  fix_msg_text_run) as (He & Hfs & _);
        [rewrite (usable_insert _ _ _ [] ) by assumption;
         now rewrite usable_world|];
      rewrite (failure_insert _ _ _ []) in He by assumption;
      rewrite failure_world in He;
      destruct (fix_file msg_path fix_msg_text "Fixed msg.rs" w1) as [r w2]
    end.
    cbn [fst snd files] in *. subst r. auto.
  - intros t1 t2 Hl1 Hr1 Hl2 Hr2 Hu.
    exists (g_mbox t1), (g_msg t2).
    split; [apply fix_mbox_text_run|]. split; [apply fix_msg_text_run|].
    rewrite main_unfold, fix_mbox_file.
    rewrite (routine_succeeds _ _ g_mbox _ w t1 fix_mbox_text_run Hl1 Hr1).
    rewrite fix_msg_file.
    rewrite (routine_succeeds _ _ g_msg _ _ t2 fix_msg_text_run);
      [|cbn [files]; now rewrite lookup_insert_ne | assumption].
    rewrite fix_vcf_file. cbn [files readonly events].
    match goal with |- context [fix_file vcf_path _ _ ?w2] =>
      destruct (routine_fails vcf_path fix_vcf_text g_vcf "Fixed vcf.rs" w2
                  fix_vcf_text_run) as (He & Hfs & _);
        [rewrite (usable_insert _ _ _ []) by assumption;
         rewrite (usable_insert _ _ _ []) by assumption;
         now rewrite usable_world|];
      rewrite (failure_insert _ _ _ []) in He by assumption;
      rewrite (failure_insert _ _ _ []) in He by assumption;
      rewrite failure_world in He;
      destruct (fix_file vcf_path fix_vcf_text "Fixed vcf.rs" w2) as [r w3]
    end.
    cbn [fst snd files] in *. subst r. auto.
Qed.

(** X8: When the three files exist and may be written, the main block
    rewrites each of them with the result of its transformation, in the
    order mbox, msg, vcf, reports each one and then the whole run; no
    other file changes. *)
Theorem main_rewrites_all (w : world) (t1 t2 t3 : text) :
  files w !! mbox_path = Some t1 -> files w !! msg_path = Some t2 ->
  files w !! vcf_path = Some t3 ->
  mbox_path ∉ readonly w -> msg_path ∉ readonly w -> vcf_path ∉ readonly w ->
  exists o1 o2 o3,
    fix_mbox_text t1 = Ok o1 /\ fix_msg_text t2 = Ok o2
    /\ fix_vcf_text t3 = Ok o3
    /\ main w
       = (Val tt,
          World (<[vcf_path := o3]>
                   (<[msg_path := o2]> (<[mbox_path := o1]> (files w))))
                (readonly w)
                (events w
                 ++ [EvRead mbox_path; EvWrite mbox_path o1; EvPrint "Fixed mbox.rs";
                     EvRead msg_path; EvWrite msg_path o2; EvPrint "Fixed msg.rs";
                     EvRead vcf_path; EvWrite vcf_path o3; EvPrint "Fixed vcf.rs";
                     EvPrint "All email parsers fixed!"])).
Proof.
  destruct paths_distinct as (H12 & H13 & H23).
  intros Hl1 Hl2 Hl3 Hr1 Hr2 Hr3.
  exists (g_mbox t1), (g_msg t2), (g_vcf t3).
  split; [apply fix_mbox_text_run|]. split; [apply fix_msg_text_run|].
  split; [apply fix_vcf_text_run|].
  rewrite main_unfold, fix_mbox_file.
  rewrite (routine_succeeds _ _ g_mbox _ w t1 fix_mbox_text_run Hl1 Hr1).
  rewrite fix_msg_file.
  rewrite (routine_succeeds _ _ g_msg _ _ t2 fix_msg_text_run);
    [|cbn [files]; now rewrite lookup_insert_ne | assumption].
  rewrite fix_vcf_file.
  rewrite (routine_succeeds _ _ g_vcf _ _ t3 fix_vcf_text_run);
    [|cbn [files]; now rewrite !lookup_insert_ne by assumption | assumption].
  unfold emit. cbn [files readonly events].
  now rewrite <- !app_assoc.
Qed.

Lemma main_rewrites_all_witness :
  exists o1 o2 o3, (main full_world).1 = Val tt
    /\ files (main full_world).2 !! mbox_path = Some o1
    /\ files (main full_world).2 !! msg_path = Some o2
    /\ files (main full_world).2 !! vcf_path = Some o3
    /\ fix_mbox_text header_compact = Ok o1.
Proof.
  destruct paths_distinct as (H12 & H13 & H23).
  destruct (main_rewrites_all full_world header_compact plain_text plain_text)
    as (o1 & o2 & o3 & E1 & E2 & E3 & Hm);
    [vm_compute; reflexivity | vm_compute; reflexivity | vm_compute; reflexivity
    | apply not_elem_of_empty | apply not_elem_of_empty | apply not_elem_of_empty |].
  exists o1, o2, o3. rewrite Hm. cbn [fst snd files].
  split; [reflexivity|].
  split; [rewrite !lookup_insert_ne by congruence; apply lookup_insert_eq|].
  split; [rewrite lookup_insert_ne by congruence; apply lookup_insert_eq|].
  split; [apply lookup_insert_eq | exact E1].
Defined.

Lemma main_stops_at_first_failure_witness :
  (main locked_world).1 = Raise (PermissionError msg_path)
  /\ files (main locked_world).2 !! vcf_path = Some plain_text
  /\ exists o1, fix_mbox_text header_compact = Ok o1
                /\ files (main locked_world).2 !! mbox_path = Some o1.
Proof.
  destruct paths_distinct as (H12 & H13 & H23).
  destruct (main_stops_at_first_failure locked_world) as (_ & H & _).
  destruct (H header_compact) as (o1 & E1 & Hr & Hf).
  - vm_compute. reflexivity.
  - cbn [locked_world readonly]. intros Hin.
    apply elem_of_singleton in Hin. contradiction.
  - intros [_ Hn]. apply Hn. cbn [locked_world readonly].
    now apply elem_of_singleton.
  - rewrite Hr, Hf. split; [vm_compute; reflexivity|]. split.
    + rewrite lookup_insert_ne by assumption. vm_compute. reflexivity.
    + exists o1. split; [exact E1 | apply lookup_insert_eq].
Defined.


Lemma run_compiled_untouched rs cs t :
  compile_rules rs = Ok cs ->
  (forall r, In r rs -> ~ rule_occurs r t) -> run_compiled cs t = t.
Proof.
  intros Hc Hn. pose proof (run_rules_compiled rs cs t Hc) as H.
  rewrite (run_rules_untouched rs cs t Hc Hn) in H. cbn [snd] in H. congruence.
Qed.

(** X10: A routine does not check whether it changed anything.  When no
    rule has an occurrence in the file, it still writes the file back
    with the text it read and reports it as fixed. *)
Theorem unchanged_file_still_written (w : world) (t : text) :
  (files w !! mbox_path = Some t -> mbox_path ∉ readonly w ->
   (forall r, In r mbox_rules -> ~ rule_occurs r t) ->
   fix_mbox w
   = (Val tt, World (files w) (readonly w)
                (events w ++ [EvRead mbox_path; EvWrite mbox_path t;
                              EvPrint "Fixed mbox.rs"])))
  /\ (files w !! msg_path = Some t -> msg_path ∉ readonly w ->
      (forall r, In r msg_rules -> ~ rule_occurs r t) ->
      fix_msg w
      = (Val tt, World (files w) (readonly w)
                   (events w ++ [EvRead msg_path; EvWrite msg_path t;
                                 EvPrint "Fixed msg.rs"])))
  /\ (files w !! vcf_path = Some t -> vcf_path ∉ readonly w ->
      (forall r, In r vcf_rules -> ~ rule_occurs r t) ->
      fix_vcf w
      = (Val tt, World (files w) (readonly w)
                   (events w ++ [EvRead vcf_path; EvWrite vcf_path t;
                                 EvPrint "Fixed vcf.rs"]))).
Proof.
  split; [|split]; intros Hl Hr Hn.
  - rewrite fix_mbox_file.
    rewrite (routine_succeeds _ _ g_mbox _ w t fix_mbox_text_run Hl Hr).
    unfold g_mbox. rewrite (run_compiled_untouched _ _ t mbox_compiles Hn).
    now rewrite (insert_id _ _ _ Hl).
  - rewrite fix_msg_file.
    rewrite (routine_succeeds _ _ g_msg _ w t fix_msg_text_run Hl Hr).
    unfold g_msg. rewrite (run_compiled_untouched _ _ t msg_compiles Hn).
    now rewrite (insert_id _ _ _ Hl).
  - rewrite fix_vcf_file.
    rewrite (routine_succeeds _ _ g_vcf _ w t fix_vcf_text_run Hl Hr).
    unfold g_vcf. rewrite (run_compiled_untouched _ _ t vcf_compiles Hn).
    now rewrite (insert_id _ _ _ Hl).
Qed.

Lemma unchanged_file_still_written_witness :
  fix_msg full_world
  = (Val tt, World (files full_world) (readonly full_world)
               [EvRead msg_path; EvWrite msg_path plain_text;
                EvPrint "Fixed msg.rs"]).
Proof.
  destruct paths_distinct as (H12 & H13 & H23).
  destruct (unchanged_file_still_written full_world plain_text) as (_ & H & _).
  apply H.
  - vm_compute. reflexivity.
  - apply not_elem_of_empty.
  - apply untouched_by_spec. vm_compute. reflexivity.
Defined.

(** X11: The main block touches nothing but its three files: it creates
    and deletes no file, leaves the content of every other path and the
    write protection as they were. *)
Theorem main_touches_only_its_files (w : world) :
  dom (files (main w).2) = dom (files w)
  /\ readonly (main w).2 = readonly w
  /\ forall p, p <> mbox_path -> p <> msg_path -> p <> vcf_path ->
               files (main w).2 !! p = files w !! p.
Proof.
  destruct (main_stage w) as (Hr & _ & Hf).
  split; [|split].
  - rewrite Hf. apply main_files_dom.
  - exact Hr.
  - intros p P1 P2 P3. rewrite Hf. now apply main_files_frame.
Qed.

Lemma main_touches_only_its_files_witness :
  files (main full_world).2 !! "README.md" = Some plain_text.
Proof.
  destruct (main_touches_only_its_files full_world) as (_ & _ & H).
  rewrite H.
  - apply lookup_insert_eq.
  - intros E. apply String.eqb_eq in E. vm_compute in E. discriminate.
  - intros E. apply String.eqb_eq in E. vm_compute in E. discriminate.
  - intros E. apply String.eqb_eq in E. vm_compute in E. discriminate.
Defined.

Section Other_edits.

Lemma replaces_all_spec old new s :
  old <> [] -> unbordered old = true ->
  replaces_all old new s (str_replace old new s).
Proof.
  intros Hne Hub.
  destruct (replace_pieces old new Hne s) as (l & Hl & Hj & Hr & Hall & Hocc).
  exists l. split; [assumption|]. split; [assumption|].
  split; [unfold str_replace; now rewrite Hr|]. split; [assumption|].
  now apply Hocc.
Qed.

End Other_edits.

(** X12: The other literal edits replace every occurrence and nothing
    else: the text splits at the occurrences of the search string, the
    pieces between them are kept in order, and every occurrence in the
    text is one of the places replaced.  This holds for the first
    address edit of [fix_mbox], for the import edit of [fix_msg], and
    for the last rule of [fix_vcf], whose pattern has no variable part:
    that [re.sub] is the replacement of [filter_old] by its template. *)
Theorem other_edits_replace_all (s : text) :
  replaces_all mbox_old5 mbox_new5 s (str_replace mbox_old5 mbox_new5 s)
  /\ replaces_all msg_old1 msg_new1 s (str_replace msg_old1 msg_new1 s)
  /\ re_sub vcf_pattern5 vcf_repl5 s [] = Ok (str_replace filter_old vcf_repl5 s)
  /\ replaces_all filter_old vcf_repl5 s (str_replace filter_old vcf_repl5 s).
Proof.
  split; [|split; [|split]].
  - apply replaces_all_spec; [discriminate | vm_compute; reflexivity].
  - apply replaces_all_spec; [discriminate | vm_compute; reflexivity].
  - unfold re_sub, re_subn, str_replace. rewrite str_replace_sub.
    assert (re_compile vcf_pattern5 = Ok (lit filter_old, 0)) as ->
      by (vm_compute; reflexivity).
    cbn [bind_outcome fst snd].
    assert (parse_template 0 vcf_repl5 = Ok (map TLit vcf_repl5)) as ->
      by (vm_compute; reflexivity).
    reflexivity.
  - apply replaces_all_spec; [discriminate | vm_compute; reflexivity].
Qed.
